(** * MOSFET lifetime simulation: thermal network, rainflow counting and
      Miner's-rule lifetime estimate

    A shallow embedding of [thermal_simulation.py] and
    [lifetime_estimation.py], with the device table of [mosfet_params.py].

    Conventions of the embedding.
    - A Python/NumPy float is a real number ([R]); rounding, infinities and
      NaN are outside the model.  The one infinite value the program builds
      on purpose, [float('inf')] in [estimate_lifetime_years], is a
      constructor of its own ([Infinite]).
    - A Python list or a one-dimensional NumPy array is a [list]; an index
      that is out of range raises [IndexError] in Python and is [None] here.
    - A dictionary with a fixed set of keys is a record whose fields carry
      the keys' names. *)

From Stdlib Require Import Reals Lra Lia List ZArith Bool Arith Sorted.
From Stdlib Require String.
Import String.StringSyntax.
Import ListNotations.
Delimit Scope string_scope with string.
Open Scope R_scope.

(** ** A small error monad for [IndexError] *)

Definition bind {A B : Type} (m : option A) (k : A -> option B) : option B :=
  match m with
  | Some a => k a
  | None => None
  end.

Notation "'do' x <- m ; k" := (bind m (fun x => k))
  (at level 10, x name, m at level 100, k at level 200).

Fixpoint mapM {A B : Type} (f : A -> option B) (l : list A) : option (list B) :=
  match l with
  | [] => Some []
  | a :: l' => do b <- f a; do bs <- mapM f l'; Some (b :: bs)
  end.

(** ** Comparisons of floats as booleans *)

Definition Rleb (a b : R) : bool := if Rle_dec a b then true else false.
Definition Rltb (a b : R) : bool := if Rlt_dec a b then true else false.
Definition Rgeb (a b : R) : bool := Rleb b a.
Definition Rgtb (a b : R) : bool := Rltb b a.

(** ** Device parameters ([mosfet_params.py]) *)

Module LifetimeParams.
Record t : Type := mk {
  A : R;
  n : R;
  Ea : R
}.
End LifetimeParams.

Module MOSFETParams.
Record t : Type := mk {
  R_DS_ON_25 : R;
  R_DS_ON_TEMP_COEFF : R;
  T_ON_25 : R;
  T_OFF_25 : R;
  E_OSS_25 : R;
  Q_RR_25 : R;
  R_TH : list R;
  C_TH : list R;
  K_T_SW : R;
  K_E_OSS : R;
  K_Q_RR : R;
  C_OSS : R;
  COOLING_COEFF : R;
  SURFACE_AREA : R;
  MAX_TEMP : R;
  LIFETIME_PARAMS : LifetimeParams.t
}.
End MOSFETParams.
Import MOSFETParams.

Definition SPB20N60C3 : MOSFETParams.t := {|
  R_DS_ON_25 := 0.19;
  R_DS_ON_TEMP_COEFF := 0.01;
  T_ON_25 := 25e-9;
  T_OFF_25 := 35e-9;
  E_OSS_25 := 3.2e-6;
  Q_RR_25 := 0.8e-6;
  R_TH := [0.05; 0.1; 0.15; 0.2; 0.25];
  C_TH := [1.5e-6; 1.5e-5; 1.5e-4; 1.5e-3; 1.5e-2];
  K_T_SW := 0.004;
  K_E_OSS := 0.0015;
  K_Q_RR := 0.0025;
  C_OSS := 150e-12;
  COOLING_COEFF := 15;
  SURFACE_AREA := 0.0012;
  MAX_TEMP := 175;
  LIFETIME_PARAMS := {| LifetimeParams.A := 3.5e5;
                        LifetimeParams.n := 5.1;
                        LifetimeParams.Ea := 0.54 |}
|}.

Definition STB7ANM60N : MOSFETParams.t := {|
  R_DS_ON_25 := 0.95;
  R_DS_ON_TEMP_COEFF := 0.01;
  T_ON_25 := 30e-9;
  T_OFF_25 := 100e-9;
  E_OSS_25 := 1.5e-6;
  Q_RR_25 := 0.5e-6;
  R_TH := [0.1; 0.15; 0.2; 0.25; 0.3];
  C_TH := [0.8e-6; 0.8e-5; 0.8e-4; 0.8e-3; 0.8e-2];
  K_T_SW := 0.005;
  K_E_OSS := 0.002;
  K_Q_RR := 0.003;
  C_OSS := 80e-12;
  COOLING_COEFF := 12;
  SURFACE_AREA := 0.0008;
  MAX_TEMP := 175;
  LIFETIME_PARAMS := {| LifetimeParams.A := 2.8e5;
                        LifetimeParams.n := 5.3;
                        LifetimeParams.Ea := 0.49 |}
|}.

(** [T_AMB] and [F_SW] of [main-script.py]. *)
Definition T_AMB : R := 50.
Definition F_SW : R := 10.

(** ** [thermal_simulation.py] *)

(** [calculate_power_dissipation]: returns [(p_total, p_cond, p_sw, p_cap)]. *)
Definition calculate_power_dissipation
    (v_ds i_d t_j : R) (params : MOSFETParams.t) (f_sw : R) : R * R * R * R :=
  let r_ds_on := R_DS_ON_25 params * (1 + R_DS_ON_TEMP_COEFF params * (t_j - 25)) in
  let p_cond := i_d ^ 2 * r_ds_on in
  let t_on := T_ON_25 params * (1 + K_T_SW params * (t_j - 25)) in
  let t_off := T_OFF_25 params * (1 + K_T_SW params * (t_j - 25)) in
  let e_oss := E_OSS_25 params * (1 + K_E_OSS params * (t_j - 25)) in
  let q_rr := Q_RR_25 params * (1 + K_Q_RR params * (t_j - 25)) in
  let e_on := 0.5 * v_ds * i_d * t_on in
  let e_off := 0.5 * v_ds * i_d * t_off in
  let e_rr := v_ds * q_rr in
  let p_sw := (e_on + e_off + e_oss + e_rr) * f_sw in
  let p_cap := 0.5 * C_OSS params * v_ds ^ 2 * f_sw in
  let p_total := p_cond + p_sw + p_cap in
  (p_total, p_cond, p_sw, p_cap).

(** [non_linear_thermal_properties]: returns [(r_th, c_th)]. *)
Definition non_linear_thermal_properties
    (t_j : R) (params : MOSFETParams.t) : list R * list R :=
  let r_th := map (fun r => r * (1 + 0.005 * (t_j - 25))) (R_TH params) in
  let c_th := map (fun c => c * (1 + 0.002 * (t_j - 25))) (C_TH params) in
  (r_th, c_th).

(** The body of the loop [for i in range(n)] of [thermal_model]: the value
    stored in [dy[i]]. *)
Definition thermal_model_dy
    (y r_th c_th : list R) (n : nat) (p_total p_cool t_amb : R) (i : nat)
    : option R :=
  if (i =? 0)%nat then
    do yi <- nth_error y i;
    do ynext <- (if (i + 1 <? n)%nat then nth_error y (i + 1) else Some 0);
    do r <- nth_error r_th i;
    do c <- nth_error c_th i;
    Some ((p_total - p_cool - (yi - ynext) / r) / c)
  else if (i =? n - 1)%nat then
    do yprev <- nth_error y (i - 1);
    do yi <- nth_error y i;
    do r <- nth_error r_th i;
    do c <- nth_error c_th i;
    Some (((yprev - yi) / r - (yi - t_amb) / r) / c)
  else
    do yprev <- nth_error y (i - 1);
    do yi <- nth_error y i;
    do ynext <- nth_error y (i + 1);
    do r <- nth_error r_th i;
    do rnext <- nth_error r_th (i + 1);
    do c <- nth_error c_th i;
    Some (((yprev - yi) / r - (yi - ynext) / rnext) / c).

(** [thermal_model]: the right-hand side of the ODE.  The two interpolated
    waveforms are functions of time. *)
Definition thermal_model
    (t : R) (y : list R) (params : MOSFETParams.t)
    (v_ds_func i_d_func : R -> R) (t_amb f_sw : R) : option (list R) :=
  do y0 <- nth_error y 0;
  let t_j := y0 + t_amb in
  let '(r_th, c_th) := non_linear_thermal_properties t_j params in
  let n := length r_th in
  let v_ds := v_ds_func t in
  let i_d := i_d_func t in
  let '(p_total, _, _, _) := calculate_power_dissipation v_ds i_d t_j params f_sw in
  let p_cool := COOLING_COEFF params * SURFACE_AREA params * (t_j - t_amb) in
  mapM (thermal_model_dy y r_th c_th n p_total p_cool t_amb) (seq 0 n).

(** The initial state of [run_thermal_simulation]: [np.zeros(len(R_TH))]. *)
Definition y0_of (params : MOSFETParams.t) : list R :=
  repeat 0 (length (R_TH params)).

(** [create_interpolation_function].  The function unpacks the samples and
    hands them to [scipy.interpolate.interp1d]; the library call is kept as
    a constructor, so a run of the function either raises in its own code or
    ends in that call.  [InvalidWaveformError] is the error kind the
    specification names; the repository defines no exception of its own. *)
Inductive exn : Type :=
| ValueError
| InvalidWaveformError.

Inductive construction : Type :=
| Raise (e : exn)
| Interp1d (t y : list R).

Definition create_interpolation_function (waveform : list (R * R)) : construction :=
  match waveform with
  | [] => Raise ValueError  (* [t, y = zip()] has nothing to unpack *)
  | _ :: _ => Interp1d (map fst waveform) (map snd waveform)
  end.

(** ** [lifetime_estimation.py] *)

(** One row [[amplitude, mean, weight]] of the array [rainflow] returns. *)
Record Cycle : Type := mkCycle {
  amplitude : R;
  mean : R;
  weight : R
}.

(** [np.diff]. *)
Fixpoint np_diff (signal : list R) : list R :=
  match signal with
  | a :: ((b :: _) as rest) => (b - a) :: np_diff rest
  | _ => []
  end.

(** [np.where(mask)[0]]: the positions at which a boolean mask holds. *)
Fixpoint np_where_from (k : Z) (mask : list bool) : list Z :=
  match mask with
  | [] => []
  | b :: mask' =>
      if b then k :: np_where_from (k + 1)%Z mask'
      else np_where_from (k + 1)%Z mask'
  end.

Definition np_where (mask : list bool) : list Z := np_where_from 0%Z mask.

(** The element-wise [&] of two masks of equal length. *)
Definition mask_and (m1 m2 : list bool) : list bool :=
  map (fun p => fst p && snd p) (combine m1 m2).

(** [np.sort] on integers. *)
Fixpoint insert_sorted (x : Z) (l : list Z) : list Z :=
  match l with
  | [] => [x]
  | y :: l' => if (x <=? y)%Z then x :: l else y :: insert_sorted x l'
  end.

Fixpoint np_sort (l : list Z) : list Z :=
  match l with
  | [] => []
  | x :: l' => insert_sorted x (np_sort l')
  end.

(** [a[j]] on a NumPy array: a negative index counts from the end. *)
Definition np_getitem {A : Type} (a : list A) (j : Z) : option A :=
  if (j <? 0)%Z then
    if (- j <=? Z.of_nat (length a))%Z
    then nth_error a (Z.to_nat (Z.of_nat (length a) + j))
    else None
  else nth_error a (Z.to_nat j).

(** Lines 7-10 of [rainflow]. *)
Definition peaks_of (signal : list R) : list Z :=
  let diff := np_diff signal in
  map (fun k => (k + 1)%Z)
      (np_where (mask_and (map (fun d => Rgtb d 0) (removelast diff))
                          (map (fun d => Rleb d 0) (tl diff)))).

Definition valleys_of (signal : list R) : list Z :=
  let diff := np_diff signal in
  map (fun k => (k + 1)%Z)
      (np_where (mask_and (map (fun d => Rltb d 0) (removelast diff))
                          (map (fun d => Rgeb d 0) (tl diff)))).

Definition extrema_of (signal : list R) : list Z :=
  np_sort (peaks_of signal ++ valleys_of signal
           ++ [0%Z; (Z.of_nat (length signal) - 1)%Z]).

(** [signal[extrema[i]]]. *)
Definition signal_at (signal : list R) (extrema : list Z) (i : nat) : option R :=
  do e <- nth_error extrema i;
  np_getitem signal e.

(** The stack of [rainflow] is kept with its top first: the head of the list
    is Python's [stack[-1]]. *)
Section RainflowLoops.
Variable signal : list R.
Variable extrema : list Z.
Variable min_delta_T : R.

(** The loop [while len(stack) >= 3] (lines 16-26), for a stack whose top
    is [i3] and whose other entries are [below]. *)
Fixpoint reduce_stack (i3 : nat) (below : list nat) (cycles : list Cycle)
    : option (list nat * list Cycle) :=
  match below with
  | i2 :: ((i1 :: _) as below') =>
      do x1 <- signal_at signal extrema i1;
      do x2 <- signal_at signal extrema i2;
      do x3 <- signal_at signal extrema i3;
      let delta_T := Rabs (x2 - x1) in
      if Rgeb delta_T min_delta_T && Rleb (Rabs (x3 - x2)) (Rabs (x2 - x1)) then
        let amplitude := delta_T / 2 in
        let mean := (x1 + x2) / 2 in
        reduce_stack i3 below' (cycles ++ [mkCycle amplitude mean 1])
      else Some (i3 :: below, cycles)
  | _ => Some (i3 :: below, cycles)
  end.

(** The loop [for i in ...] (lines 14-26) over the given values of [i]. *)
Fixpoint push_all (indices : list nat) (stack : list nat) (cycles : list Cycle)
    : option (list nat * list Cycle) :=
  match indices with
  | [] => Some (stack, cycles)
  | i :: indices' =>
      do st <- reduce_stack i stack cycles;
      push_all indices' (fst st) (snd st)
  end.

(** The loop [while len(stack) >= 2] (lines 28-36). *)
Fixpoint drain_stack (stack : list nat) (cycles : list Cycle)
    : option (list Cycle) :=
  match stack with
  | i2 :: ((i1 :: _) as rest) =>
      do x1 <- signal_at signal extrema i1;
      do x2 <- signal_at signal extrema i2;
      let delta_T := Rabs (x2 - x1) in
      if Rgeb delta_T min_delta_T then
        let amplitude := delta_T / 2 in
        let mean := (x1 + x2) / 2 in
        drain_stack rest (cycles ++ [mkCycle amplitude mean 0.5])
      else drain_stack rest cycles
  | _ => Some cycles
  end.
End RainflowLoops.

(** [rainflow]: returns [(np.array(cycles), len(cycles))]. *)
Definition rainflow (signal : list R) (min_delta_T : R) : option (list Cycle * nat) :=
  let extrema := extrema_of signal in
  do st <- push_all signal extrema min_delta_T
             (seq 0 (length extrema - 1)) [] [];
  do cycles <- drain_stack signal extrema min_delta_T (fst st) (snd st);
  Some (cycles, length cycles).

(** [scipy.constants.k], in J/K. *)
Definition boltzmann_constant : R := 1.380649e-23.

(** [delta_T ** -n] is [Rpower]; the two agree on a positive base, which is
    where the program uses it. *)
Definition calculate_cycles_to_failure
    (delta_T T_mean : R) (params : LifetimeParams.t) : R :=
  let A := LifetimeParams.A params in
  let n := LifetimeParams.n params in
  let Ea := LifetimeParams.Ea params in
  let kb := boltzmann_constant / 1.60218e-19 in
  let T_kelvin := T_mean + 273.15 in
  let N_f := A * Rpower delta_T (- n) * exp (Ea / (kb * T_kelvin)) in
  Rmax N_f 1.

(** The loop of [miners_rule_degradation] (lines 55-58). *)
Fixpoint miners_loop (cycles : list Cycle) (params : LifetimeParams.t)
    (damage : R) (cycles_to_failure : list (R * R)) : R * list (R * R) :=
  match cycles with
  | [] => (damage, cycles_to_failure)
  | c :: cycles' =>
      let delta_T := amplitude c in
      let T_mean := mean c in
      let n := weight c in
      let N_f := calculate_cycles_to_failure delta_T T_mean params in
      miners_loop cycles' params (damage + n / N_f)
                  (cycles_to_failure ++ [(delta_T, N_f)])
  end.

Definition miners_rule_degradation
    (cycles : list Cycle) (params : LifetimeParams.t) : R * list (R * R) :=
  if (length cycles =? 0)%nat then (0, [])
  else
    let '(damage, cycles_to_failure) := miners_loop cycles params 0 [] in
    (Rmax damage 1e-10, cycles_to_failure).

(** A float that may be [float('inf')]. *)
Inductive lifetime : Type :=
| Finite (years : R)
| Infinite.

Definition default_cycles_per_year : Z := 100000.

Definition estimate_lifetime_years (degradation : R) (cycles_per_year : Z) : lifetime :=
  if Rleb degradation 0 then Infinite
  else Finite (Rmin ((1 / degradation) / IZR cycles_per_year) 100).

(** [estimate_lifetime]: returns
    [(degradation, estimated_years, total_cycles, cycles_to_failure)]. *)
Definition estimate_lifetime (t_j : list R) (lifetime_params : LifetimeParams.t)
    : option (R * lifetime * nat * list (R * R)) :=
  do rf <- rainflow t_j 0.1;
  let '(temp_cycles, total_cycles) := rf in
  let '(degradation, cycles_to_failure) :=
    miners_rule_degradation temp_cycles lifetime_params in
  let estimated_years := estimate_lifetime_years degradation default_cycles_per_year in
  Some (degradation, estimated_years, total_cycles, cycles_to_failure).

(** ** Definitions used to state the properties *)

(** The derivative the specification gives for the last node of an
    [n]-node ladder whose state holds rises above ambient: conduction in
    from node [n-2] and conduction out to ambient, both through the last
    resistance, the ambient itself being a rise of zero. *)
Definition spec_last_node_derivative (y r_th c_th : list R) : R :=
  let n := length r_th in
  ((nth (n - 2) y 0 - nth (n - 1) y 0) / nth (n - 1) r_th 0
   - nth (n - 1) y 0 / nth (n - 1) r_th 0) / nth (n - 1) c_th 0.

(** The derivative the specification gives for an interior node [i]: the
    link between nodes [k] and [k+1] is the resistance [R_TH[k]]. *)
Definition spec_interior_node_derivative (y r_th c_th : list R) (i : nat) : R :=
  ((nth (i - 1) y 0 - nth i y 0) / nth (i - 1) r_th 0
   - (nth i y 0 - nth (i + 1) y 0) / nth i r_th 0) / nth i c_th 0.

(** The procedure of the specification, which pushes every extremum of the
    reduced signal, the last one included.  It differs from [rainflow] in
    the bound of the first loop only. *)
Definition rainflow_all_extrema (signal : list R) (min_delta_T : R)
    : option (list Cycle * nat) :=
  let extrema := extrema_of signal in
  do st <- push_all signal extrema min_delta_T
             (seq 0 (length extrema)) [] [];
  do cycles <- drain_stack signal extrema min_delta_T (fst st) (snd st);
  Some (cycles, length cycles).

(** [np.max(signal) - np.min(signal)], zero on an empty signal. *)
Definition np_max (signal : list R) : R := fold_right Rmax (hd 0 signal) signal.
Definition np_min (signal : list R) : R := fold_right Rmin (hd 0 signal) signal.
Definition peak_to_peak (signal : list R) : R := np_max signal - np_min signal.

(** A record the loops of [rainflow] can append: it is built from two values
    of the signal whose distance reaches the threshold. *)
Definition emitted (signal : list R) (min_delta_T : R) (c : Cycle) : Prop :=
  exists x1 x2 w : R,
    In x1 signal /\ In x2 signal /\ min_delta_T <= Rabs (x2 - x1) /\
    (w = 1 \/ w = 0.5) /\
    c = mkCycle (Rabs (x2 - x1) / 2) ((x1 + x2) / 2) w.

(** An index of the stack whose value [signal[extrema[i]]] can be read
    without an [IndexError]. *)
Definition readable (signal : list R) (extrema : list Z) (i : nat) : Prop :=
  exists x : R, signal_at signal extrema i = Some x.

(** The value before the clamp of line 46. *)
Definition unclamped_cycles_to_failure
    (delta_T T_mean : R) (params : LifetimeParams.t) : R :=
  LifetimeParams.A params * Rpower delta_T (- LifetimeParams.n params)
  * exp (LifetimeParams.Ea params
         / (boltzmann_constant / 1.60218e-19 * (T_mean + 273.15))).

(** Strictly increasing sample times. *)
Definition strictly_increasing (l : list R) : Prop :=
  forall i j : nat, (i < j < length l)%nat -> nth i l 0 < nth j l 0.

(** ** [run_thermal_simulation] and its callers *)

(** [VRT] and [IRT] of [mosfet_params.py]. *)
Definition VRT : list (R * R) :=
  [(0.0, 0); (0.2, 286); (0.5, 203); (3.0, 203);
   (3.5, 96); (13.8, 96); (14.0, -302); (14.2, 0); (14.8, 0)].

Definition IRT : list (R * R) :=
  [(0.0, 0.0); (0.2, 0.5); (0.5, 1.1); (3.0, 1.1);
   (3.5, 0.53); (13.8, 0.53); (14.0, 0.0); (14.2, 0.0); (14.8, 0.0)].

(** [MOSFET_PARAMS.items()], in the order of the table. *)
Definition MOSFET_PARAMS : list (String.string * MOSFETParams.t) :=
  [("SPB20N60C3"%string, SPB20N60C3); ("STB7ANM60N"%string, STB7ANM60N)].

(** [np.unique] on floats: the distinct values, in increasing order. *)
Fixpoint insert_unique (x : R) (l : list R) : list R :=
  match l with
  | [] => [x]
  | y :: l' =>
      if Rltb x y then x :: l
      else if Rltb y x then y :: insert_unique x l'
      else l
  end.

Definition np_unique (l : list R) : list R := fold_right insert_unique [] l.

(** [ndarray.sort] on floats. *)
Fixpoint insert_float (x : R) (l : list R) : list R :=
  match l with
  | [] => [x]
  | y :: l' => if Rleb x y then x :: l else y :: insert_float x l'
  end.

Definition sort_float (l : list R) : list R := fold_right insert_float [] l.

(** Lines 73-74 of [run_thermal_simulation]: the time array. *)
Definition time_array (vrt irt : list (R * R)) : list R :=
  sort_float (np_unique (map fst (vrt ++ irt))).

(** What ends a run early: an exception of [create_interpolation_function],
    an [IndexError], or an exception that leaves [solve_ivp]. *)
Inductive run_error : Type :=
| Raised (e : exn)
| IndexError
| SolverError.

(** The tuple [run_thermal_simulation] returns. *)
Record Trace : Type := mkTrace {
  trace_t : list R;
  trace_t_j : list R;
  trace_v_ds : list R;
  trace_i_d : list R;
  trace_p_total : list R;
  trace_p_cond : list R;
  trace_p_sw : list R;
  trace_p_cap : list R
}.

(** The body of the loop of lines 101-102. *)
Definition power_at (v_ds i_d t_j : list R) (params : MOSFETParams.t) (f_sw : R)
    (i : nat) : option (R * R * R * R) :=
  do v <- nth_error v_ds i;
  do c <- nth_error i_d i;
  do tj <- nth_error t_j i;
  Some (calculate_power_dissipation v c tj params f_sw).

(** Lines 91-104 of [run_thermal_simulation]: the junction temperature
    from the first row of [solution.y], the waveforms on the time array,
    and the four power arrays, filled index by index. *)
Definition power_trace (t : list R) (v_func i_func : R -> R) (row : list R)
    (params : MOSFETParams.t) (t_amb f_sw : R) : run_error + Trace :=
  let t_j := map (fun x => x + t_amb) row in
  let v_ds := map v_func t in
  let i_d := map i_func t in
  match mapM (power_at v_ds i_d t_j params f_sw) (seq 0 (length t)) with
  | None => inl IndexError
  | Some p =>
      inr (mkTrace t t_j v_ds i_d
             (map (fun q => fst (fst (fst q))) p)
             (map (fun q => snd (fst (fst q))) p)
             (map (fun q => snd (fst q)) p)
             (map (fun q => snd q) p))
  end.

(** The two SciPy calls are parameters: [interp1d t y] is the function the
    interpolant built from the samples computes, and [solve_ivp] returns the
    array [solution.y], one row for each component of the state, or nothing
    when an exception leaves the solver. *)
Section Libraries.
Variable interp1d : list R -> list R -> R -> R.
Variable solve_ivp :
  (R -> list R -> option (list R)) -> R * R -> list R -> list R ->
  option (list (list R)).

Definition interpolate_waveforms (vrt irt : list (R * R))
    : run_error + (R -> R) * (R -> R) :=
  match create_interpolation_function vrt with
  | Raise e => inl (Raised e)
  | Interp1d tv yv =>
      match create_interpolation_function irt with
      | Raise e => inl (Raised e)
      | Interp1d ti yi => inr (interp1d tv yv, interp1d ti yi)
      end
  end.

Definition run_thermal_simulation (params : MOSFETParams.t)
    (vrt irt : list (R * R)) (t_amb f_sw : R) : run_error + Trace :=
  let t := time_array vrt irt in
  match interpolate_waveforms vrt irt with
  | inl e => inl e
  | inr (v_func, i_func) =>
      let y0 := y0_of params in
      match np_getitem t 0, np_getitem t (-1) with
      | Some t_first, Some t_last =>
          match solve_ivp
                  (fun t y => thermal_model t y params v_func i_func t_amb f_sw)
                  (t_first, t_last) y0 t with
          | None => inl SolverError
          | Some solution_y =>
              match nth_error solution_y 0 with
              | None => inl IndexError
              | Some row => power_trace t v_func i_func row params t_amb f_sw
              end
          end
      | _, _ => inl IndexError
      end
  end.

(** [run_simulation] of [main-script.py]: a device whose run raises is
    logged and left out.  The entry of a device is its trace and the tuple
    of [estimate_lifetime]. *)
Definition run_simulation_step
    (results : list (String.string * (Trace * (R * lifetime * nat * list (R * R)))))
    (device : String.string * MOSFETParams.t)
    : list (String.string * (Trace * (R * lifetime * nat * list (R * R)))) :=
  match run_thermal_simulation (snd device) VRT IRT T_AMB F_SW with
  | inl _ => results
  | inr tr =>
      match estimate_lifetime (trace_t_j tr) (LIFETIME_PARAMS (snd device)) with
      | None => results
      | Some e => results ++ [(fst device, (tr, e))]
      end
  end.

Definition run_simulation (devices : list (String.string * MOSFETParams.t))
    : list (String.string * (Trace * (R * lifetime * nat * list (R * R)))) :=
  fold_left run_simulation_step devices [].
End Libraries.

(** [sum(N_f for _, N_f in cycles_to_failure)] of [main-script.py]. *)
Definition total_cycles_to_failure (cycles_to_failure : list (R * R)) : R :=
  fold_left Rplus (map snd cycles_to_failure) 0.

(** The sum of the weights of a cycle list. *)
Definition total_weight (cycles : list Cycle) : R :=
  fold_right (fun c acc => weight c + acc) 0 cycles.

(** Miner's sum of a cycle list. *)
Definition miner_sum (cycles : list Cycle) (params : LifetimeParams.t) : R :=
  fold_right
    (fun c acc =>
       weight c / calculate_cycles_to_failure (amplitude c) (mean c) params + acc)
    0 cycles.



(** * Properties *)

(** ** The error monad and the comparisons *)

Lemma bind_Some {A B : Type} (m : option A) (k : A -> option B) (b : B) :
  bind m k = Some b <-> exists a, m = Some a /\ k a = Some b.
Proof.
  destruct m as [a|]; simpl; split.
  - intros H; exists a; auto.
  - intros [a' [E H]]; inversion E; subst; exact H.
  - discriminate.
  - intros [a' [E _]]; discriminate.
Qed.

Lemma mapM_length {A B : Type} (f : A -> option B) (l : list A) (bs : list B) :
  mapM f l = Some bs -> length bs = length l.
Proof.
  revert bs; induction l as [|a l IH]; simpl; intros bs H.
  - inversion H; reflexivity.
  - apply bind_Some in H; destruct H as [b [_ H]].
    apply bind_Some in H; destruct H as [bs' [Hbs H]].
    inversion H; subst; simpl; f_equal; auto.
Qed.

Lemma mapM_nth_error {A B : Type} (f : A -> option B) (l : list A) (bs : list B) :
  mapM f l = Some bs ->
  forall (i : nat) (a : A), nth_error l i = Some a -> nth_error bs i = f a.
Proof.
  revert bs; induction l as [|a0 l IH]; simpl; intros bs H i a Hi.
  - destruct i; discriminate.
  - apply bind_Some in H; destruct H as [b [Hb H]].
    apply bind_Some in H; destruct H as [bs' [Hbs H]].
    inversion H; subst; clear H.
    destruct i as [|i]; simpl in *.
    + inversion Hi; subst; auto.
    + eauto.
Qed.

Lemma mapM_total {A B : Type} (f : A -> option B) (l : list A) :
  (forall a, In a l -> exists b, f a = Some b) -> exists bs, mapM f l = Some bs.
Proof.
  induction l as [|a l IH]; simpl; intros H.
  - eauto.
  - destruct (H a (or_introl eq_refl)) as [b Hb].
    destruct IH as [bs Hbs]; [intros; apply H; auto|].
    exists (b :: bs); rewrite Hb, Hbs; reflexivity.
Qed.

Lemma Rleb_true (a b : R) : Rleb a b = true <-> a <= b.
Proof. unfold Rleb; destruct (Rle_dec a b); split; auto; discriminate. Qed.

Lemma Rleb_false (a b : R) : Rleb a b = false <-> b < a.
Proof.
  unfold Rleb; destruct (Rle_dec a b); split; auto; try discriminate; lra.
Qed.

Lemma Rltb_true (a b : R) : Rltb a b = true <-> a < b.
Proof. unfold Rltb; destruct (Rlt_dec a b); split; auto; discriminate. Qed.

Lemma Rltb_false (a b : R) : Rltb a b = false <-> b <= a.
Proof.
  unfold Rltb; destruct (Rlt_dec a b); split; auto; try discriminate; lra.
Qed.

Lemma Rgeb_true (a b : R) : Rgeb a b = true <-> b <= a.
Proof. apply Rleb_true. Qed.

Lemma Rgeb_false (a b : R) : Rgeb a b = false <-> a < b.
Proof. apply Rleb_false. Qed.

(** ** The power model *)

(** C7.  [calculate_power_dissipation] returns the conduction loss
    [i_d^2 * R_DS_ON_25 * (1 + R_DS_ON_TEMP_COEFF * (t_j - 25))], the
    switching loss [(0.5*v_ds*i_d*t_on + 0.5*v_ds*i_d*t_off + e_oss +
    v_ds*q_rr) * f_sw] in which the two switching times are scaled by
    [K_T_SW], the output-capacitance energy by [K_E_OSS] and the
    reverse-recovery charge by [K_Q_RR], each linearly in [t_j - 25], the
    capacitive loss [0.5 * C_OSS * v_ds^2 * f_sw], and as total the sum of
    the three. *)
Theorem calculate_power_dissipation_components
    (v_ds i_d t_j : R) (params : MOSFETParams.t) (f_sw : R) :
  let t_on := T_ON_25 params + T_ON_25 params * K_T_SW params * (t_j - 25) in
  let t_off := T_OFF_25 params + T_OFF_25 params * K_T_SW params * (t_j - 25) in
  let e_oss := E_OSS_25 params + E_OSS_25 params * K_E_OSS params * (t_j - 25) in
  let q_rr := Q_RR_25 params + Q_RR_25 params * K_Q_RR params * (t_j - 25) in
  exists p_total p_cond p_sw p_cap : R,
    calculate_power_dissipation v_ds i_d t_j params f_sw
      = (p_total, p_cond, p_sw, p_cap) /\
    p_cond = i_d * i_d * R_DS_ON_25 params
             * (1 + R_DS_ON_TEMP_COEFF params * (t_j - 25)) /\
    p_sw = (v_ds * i_d * t_on / 2 + v_ds * i_d * t_off / 2 + e_oss + v_ds * q_rr)
           * f_sw /\
    p_cap = C_OSS params * (v_ds * v_ds) * f_sw / 2 /\
    p_total = p_cond + p_sw + p_cap.
Proof.
  intros t_on t_off e_oss q_rr.
  unfold calculate_power_dissipation.
  do 4 eexists.
  split; [reflexivity|].
  subst t_on t_off e_oss q_rr.
  repeat split; lra.
Qed.

(** ** The thermal network *)

Section ThermalModel.
Variables (t : R) (y : list R) (params : MOSFETParams.t).
Variables (v_ds_func i_d_func : R -> R) (t_amb f_sw : R).

Let n := length (R_TH params).
Let t_j := nth 0 y 0 + t_amb.
Let scale_r := 1 + 0.005 * (t_j - 25).
Let scale_c := 1 + 0.002 * (t_j - 25).
Let p_total :=
  fst (fst (fst (calculate_power_dissipation
                   (v_ds_func t) (i_d_func t) t_j params f_sw))).
Let p_cool := COOLING_COEFF params * SURFACE_AREA params * (t_j - t_amb).

(** Every entry of the result is the value the loop body stores. *)
Lemma thermal_model_entries (dy : list R) :
  thermal_model t y params v_ds_func i_d_func t_amb f_sw = Some dy ->
  length dy = n /\
  forall i : nat, (i < n)%nat ->
    nth_error dy i =
    thermal_model_dy y (map (fun r => r * scale_r) (R_TH params))
                     (map (fun c => c * scale_c) (C_TH params))
                     n p_total p_cool t_amb i.
Proof.
  unfold thermal_model. intros H.
  apply bind_Some in H. destruct H as [y0 [Hy0 H]].
  unfold non_linear_thermal_properties in H.
  assert (Et : y0 + t_amb = t_j).
  { unfold t_j. destruct y; simpl in Hy0; [discriminate|].
    inversion Hy0; reflexivity. }
  rewrite Et in H. fold scale_r scale_c in H.
  unfold p_total.
  destruct (calculate_power_dissipation _ _ _ _ _) as [[[p ?] ?] ?].
  rewrite length_map in H. fold n in H. fold p_cool in H.
  split.
  - apply mapM_length in H. rewrite length_seq in H. exact H.
  - intros i Hi.
    apply (mapM_nth_error _ _ _ H i i).
    rewrite nth_error_nth' with (d := 0%nat) by (rewrite length_seq; exact Hi).
    rewrite seq_nth by exact Hi. reflexivity.
Qed.

(** What the code computes for node 0 of a ladder of at least two nodes:
    the outflow to node 1 goes through [R_TH[0]]. *)
Lemma thermal_model_first_node (dy : list R) (y0 y1 r c : R) :
  thermal_model t y params v_ds_func i_d_func t_amb f_sw = Some dy ->
  (2 <= n)%nat ->
  nth_error y 0 = Some y0 ->
  nth_error y 1 = Some y1 ->
  nth_error (R_TH params) 0 = Some r ->
  nth_error (C_TH params) 0 = Some c ->
  nth_error dy 0 =
  Some ((p_total - p_cool - (y0 - y1) / (r * scale_r)) / (c * scale_c)).
Proof.
  intros H Hn H0 H1 Hr Hc.
  destruct (thermal_model_entries dy H) as [_ E].
  rewrite E by lia. unfold thermal_model_dy.
  cbn [Nat.eqb Nat.add].
  destruct (Nat.ltb_spec 1 n) as [_|L]; [|lia].
  rewrite H0, H1; cbn [bind].
  rewrite !nth_error_map, Hr, Hc; reflexivity.
Qed.

(** What the code computes for the last node of a ladder of at least two
    nodes: the outflow is driven by [y[n-1] - t_amb]. *)
Lemma thermal_model_last_node (dy : list R) (yprev yi r c : R) :
  thermal_model t y params v_ds_func i_d_func t_amb f_sw = Some dy ->
  (2 <= n)%nat ->
  nth_error y (n - 2) = Some yprev ->
  nth_error y (n - 1) = Some yi ->
  nth_error (R_TH params) (n - 1) = Some r ->
  nth_error (C_TH params) (n - 1) = Some c ->
  nth_error dy (n - 1) =
  Some (((yprev - yi) / (r * scale_r) - (yi - t_amb) / (r * scale_r))
        / (c * scale_c)).
Proof.
  intros H Hn Hp Hi Hr Hc.
  destruct (thermal_model_entries dy H) as [_ E].
  rewrite E by lia. unfold thermal_model_dy.
  destruct (Nat.eqb_spec (n - 1) 0) as [E0|_]; [lia|].
  rewrite Nat.eqb_refl.
  replace (n - 1 - 1)%nat with (n - 2)%nat by lia.
  rewrite Hp, Hi; simpl.
  rewrite !nth_error_map, Hr, Hc; reflexivity.
Qed.

(** The same value, set against the derivative of the specification: the
    code adds [t_amb / r / c] to it. *)
Lemma thermal_model_last_node_excess (dy : list R) (yprev yi r c : R) :
  thermal_model t y params v_ds_func i_d_func t_amb f_sw = Some dy ->
  (2 <= n)%nat ->
  nth_error y (n - 2) = Some yprev ->
  nth_error y (n - 1) = Some yi ->
  nth_error (R_TH params) (n - 1) = Some r ->
  nth_error (C_TH params) (n - 1) = Some c ->
  r * scale_r <> 0 -> c * scale_c <> 0 ->
  nth_error dy (n - 1) =
  Some (((yprev - yi) / (r * scale_r) - yi / (r * scale_r)) / (c * scale_c)
        + t_amb / (r * scale_r) / (c * scale_c)).
Proof.
  intros H Hn Hp Hi Hr Hc Nr Nc.
  rewrite (thermal_model_last_node dy yprev yi r c H Hn Hp Hi Hr Hc).
  f_equal. generalize dependent (r * scale_r). generalize dependent (c * scale_c).
  intros c' Nc r' Nr. field. split; assumption.
Qed.

(** What the code computes for an interior node [i]: the inflow from node
    [i-1] goes through [R_TH[i]] and the outflow to node [i+1] through
    [R_TH[i+1]]. *)
Lemma thermal_model_interior_node
    (dy : list R) (i : nat) (yprev yi ynext r rnext c : R) :
  thermal_model t y params v_ds_func i_d_func t_amb f_sw = Some dy ->
  (0 < i)%nat -> (i < n - 1)%nat ->
  nth_error y (i - 1) = Some yprev ->
  nth_error y i = Some yi ->
  nth_error y (i + 1) = Some ynext ->
  nth_error (R_TH params) i = Some r ->
  nth_error (R_TH params) (i + 1) = Some rnext ->
  nth_error (C_TH params) i = Some c ->
  nth_error dy i =
  Some (((yprev - yi) / (r * scale_r) - (yi - ynext) / (rnext * scale_r))
        / (c * scale_c)).
Proof.
  intros H H0 Hn Hp Hi Hx Hr Hrn Hc.
  destruct (thermal_model_entries dy H) as [_ E].
  rewrite E by lia. unfold thermal_model_dy.
  destruct (Nat.eqb_spec i 0) as [E0|_]; [lia|].
  destruct (Nat.eqb_spec i (n - 1)) as [E1|_]; [lia|].
  rewrite Hp, Hi, Hx; simpl.
  rewrite !nth_error_map, Hr, Hrn, Hc; reflexivity.
Qed.

(** On a state and a capacitance list as long as the resistance list, no
    index is out of range. *)
Lemma thermal_model_total :
  (0 < n)%nat -> length y = n -> length (C_TH params) = n ->
  exists dy, thermal_model t y params v_ds_func i_d_func t_amb f_sw = Some dy.
Proof.
  intros Hn Hy Hc. unfold thermal_model.
  destruct y as [|y0 ys] eqn:Ey; [simpl in Hy; lia|]. simpl bind.
  rewrite length_map. fold n.
  apply mapM_total. intros i Hi. apply in_seq in Hi.
  assert (L : forall (l : list R) k, (k < length l)%nat ->
              exists x, nth_error l k = Some x).
  { intros l k Hk. destruct (nth_error l k) eqn:E; eauto.
    apply nth_error_None in E. lia. }
  unfold thermal_model_dy.
  destruct (Nat.eqb_spec i 0) as [E0|N0];
    [|destruct (Nat.eqb_spec i (n - 1)) as [E1|N1]].
  - destruct (L (y0 :: ys) i) as [a Ha]; [lia|].
    destruct (L (map (fun r => r * (1 + 0.005 * (y0 + t_amb - 25))) (R_TH params)) i)
      as [b Hb]; [rewrite length_map; fold n; lia|].
    destruct (L (map (fun c => c * (1 + 0.002 * (y0 + t_amb - 25))) (C_TH params)) i)
      as [d Hd]; [rewrite length_map; lia|].
    rewrite Ha, Hb, Hd. simpl bind.
    destruct (Nat.ltb_spec (i + 1) n).
    + destruct (L (y0 :: ys) (i + 1)%nat) as [a' Ha']; [lia|].
      rewrite Ha'. simpl. eauto.
    + simpl. eauto.
  - destruct (L (y0 :: ys) (i - 1)%nat) as [a' Ha']; [lia|].
    destruct (L (y0 :: ys) i) as [a Ha]; [lia|].
    destruct (L (map (fun r => r * (1 + 0.005 * (y0 + t_amb - 25))) (R_TH params)) i)
      as [b Hb]; [rewrite length_map; fold n; lia|].
    destruct (L (map (fun c => c * (1 + 0.002 * (y0 + t_amb - 25))) (C_TH params)) i)
      as [d Hd]; [rewrite length_map; lia|].
    rewrite Ha', Ha, Hb, Hd. simpl. eauto.
  - destruct (L (y0 :: ys) (i - 1)%nat) as [a' Ha']; [lia|].
    destruct (L (y0 :: ys) i) as [a Ha]; [lia|].
    destruct (L (y0 :: ys) (i + 1)%nat) as [a'' Ha'']; [lia|].
    destruct (L (map (fun r => r * (1 + 0.005 * (y0 + t_amb - 25))) (R_TH params)) i)
      as [b Hb]; [rewrite length_map; fold n; lia|].
    destruct (L (map (fun r => r * (1 + 0.005 * (y0 + t_amb - 25))) (R_TH params)) (i + 1)%nat)
      as [b' Hb']; [rewrite length_map; fold n; lia|].
    destruct (L (map (fun c => c * (1 + 0.002 * (y0 + t_amb - 25))) (C_TH params)) i)
      as [d Hd]; [rewrite length_map; lia|].
    rewrite Ha', Ha, Ha'', Hb, Hb', Hd. simpl. eauto.
Qed.
End ThermalModel.

(** The initial state of the simulation and the scaled network at the
    junction temperature it gives. *)
Lemma y0_of_SPB20N60C3 : y0_of SPB20N60C3 = [0; 0; 0; 0; 0].
Proof. reflexivity. Qed.

(** C1.  At the simulation's own initial state (every node at ambient, all
    rises zero) with the ambient of [main-script.py], the code gives the
    last node of the SPB20N60C3 ladder the derivative
    [50 / (0.28125 * 0.01575)], where the derivative of the specification,
    driven by the node's rise alone, is zero: line 64 subtracts [t_amb]
    from a value that is already a rise above ambient. *)
Theorem thermal_model_last_node_subtracts_ambient (v_ds_func i_d_func : R -> R) :
  let y := y0_of SPB20N60C3 in
  let r_th := fst (non_linear_thermal_properties (0 + T_AMB) SPB20N60C3) in
  let c_th := snd (non_linear_thermal_properties (0 + T_AMB) SPB20N60C3) in
  exists dy : list R,
    thermal_model 0 y SPB20N60C3 v_ds_func i_d_func T_AMB F_SW = Some dy /\
    nth_error dy 4 = Some (50 / (0.28125 * 0.01575)) /\
    spec_last_node_derivative y r_th c_th = 0 /\
    50 / (0.28125 * 0.01575) <> 0.
Proof.
  intros y r_th c_th.
  destruct (thermal_model_total 0 y SPB20N60C3 v_ds_func i_d_func T_AMB F_SW)
    as [dy Hdy]; try reflexivity; [simpl; lia|].
  exists dy. split; [exact Hdy|]. split; [|split].
  - pose proof (thermal_model_last_node _ _ _ _ _ _ _ dy 0 0 0.25 1.5e-2 Hdy) as E.
    change (length (R_TH SPB20N60C3)) with 5%nat in E. cbn [Nat.sub] in E.
    rewrite E; try reflexivity; [|lia].
    f_equal. unfold T_AMB. simpl nth. lra.
  - unfold spec_last_node_derivative, y, r_th, c_th. simpl. lra.
  - apply Rgt_not_eq. apply Rdiv_lt_0_compat; lra.
Qed.

(** C2.  With the first node of the SPB20N60C3 ladder one degree above the
    others, the heat that leaves node 0 for node 1 is [(1 - 0) / 0.0565],
    through [R_TH[0]], and the heat that enters node 1 from node 0 is
    [(1 - 0) / 0.113], through [R_TH[1]]: the code's interior nodes take
    their inflow through [R_TH[i]] and their outflow through [R_TH[i+1]],
    where the ladder of the specification, and the code's own node 0,
    conduct between nodes [i] and [i+1] through [R_TH[i]]. *)
Theorem thermal_model_interior_node_shifts_resistance (v_ds_func i_d_func : R -> R) :
  let y := [1; 0; 0; 0; 0] in
  let r_th := fst (non_linear_thermal_properties (1 + T_AMB) SPB20N60C3) in
  let c_th := snd (non_linear_thermal_properties (1 + T_AMB) SPB20N60C3) in
  exists (dy : list R) (p : R),
    thermal_model 0 y SPB20N60C3 v_ds_func i_d_func T_AMB F_SW = Some dy /\
    nth_error dy 0 = Some ((p - (1 - 0) / 0.0565) / 1.578e-6) /\
    nth_error dy 1 = Some (((1 - 0) / 0.113 - (0 - 0) / 0.1695) / 1.578e-5) /\
    spec_interior_node_derivative y r_th c_th 1
      = ((1 - 0) / 0.0565 - (0 - 0) / 0.113) / 1.578e-5 /\
    ((1 - 0) / 0.113 - (0 - 0) / 0.1695) / 1.578e-5
      <> ((1 - 0) / 0.0565 - (0 - 0) / 0.113) / 1.578e-5.
Proof.
  intros y r_th c_th.
  destruct (thermal_model_total 0 y SPB20N60C3 v_ds_func i_d_func T_AMB F_SW)
    as [dy Hdy]; try reflexivity; [simpl; lia|].
  exists dy.
  exists (fst (fst (fst (calculate_power_dissipation
                           (v_ds_func 0) (i_d_func 0) (1 + T_AMB) SPB20N60C3 F_SW)))
          - COOLING_COEFF SPB20N60C3 * SURFACE_AREA SPB20N60C3 * (1 + T_AMB - T_AMB)).
  split; [exact Hdy|]. split; [|split; [|split]].
  - pose proof (thermal_model_first_node _ _ _ _ _ _ _ dy 1 0 0.05 1.5e-6 Hdy) as E.
    change (length (R_TH SPB20N60C3)) with 5%nat in E.
    rewrite E; try reflexivity; try lia.
    f_equal. unfold T_AMB. simpl nth.
    replace (0.05 * (1 + 0.005 * (1 + 50 - 25))) with 0.0565 by lra.
    replace (1.5e-6 * (1 + 0.002 * (1 + 50 - 25))) with 1.578e-6 by lra.
    reflexivity.
  - pose proof (thermal_model_interior_node _ _ _ _ _ _ _ dy 1 1 0 0 0.1 0.15 1.5e-5 Hdy)
      as E.
    change (length (R_TH SPB20N60C3)) with 5%nat in E. cbn [Nat.sub Nat.add] in E.
    rewrite E; try reflexivity; try lia.
    f_equal. unfold T_AMB. simpl nth. lra.
  - unfold spec_interior_node_derivative, y, r_th, c_th, T_AMB. simpl. lra.
  - lra.
Qed.

(** ** Evaluating the float comparisons on concrete values *)

Arguments Rleb : simpl never.
Arguments Rltb : simpl never.

Ltac Rbool_step :=
  match goal with
  | |- context [Rabs ?x] =>
      first [ rewrite (Rabs_pos_eq x) by lra | rewrite (Rabs_left1 x) by lra ]
  | |- context [Rleb ?a ?b] =>
      first [ rewrite (proj2 (Rleb_true a b)) by lra
            | rewrite (proj2 (Rleb_false a b)) by lra ]
  | |- context [Rltb ?a ?b] =>
      first [ rewrite (proj2 (Rltb_true a b)) by lra
            | rewrite (proj2 (Rltb_false a b)) by lra ]
  | |- context [Rmax ?a ?b] =>
      first [ rewrite (Rmax_left a b) by lra | rewrite (Rmax_right a b) by lra ]
  | |- context [Rmin ?a ?b] =>
      first [ rewrite (Rmin_left a b) by lra | rewrite (Rmin_right a b) by lra ]
  end.

Ltac Reval :=
  repeat (progress (try unfold Rgeb; try unfold Rgtb; simpl; repeat Rbool_step)).

Example extrema_of_peak : extrema_of [0; 1; 0] = [0%Z; 1%Z; 2%Z].
Proof. unfold extrema_of, peaks_of, valleys_of, np_where, mask_and. Reval. reflexivity. Qed.

Example rainflow_peak :
  rainflow [0; 1; 0] 0.1 = Some ([mkCycle 0.5 0.5 0.5], 1%nat).
Proof.
  unfold rainflow. rewrite extrema_of_peak. unfold signal_at, np_getitem. Reval.
  repeat f_equal; lra.
Qed.

(** A nested excursion: the triple (0, 2, 1) closes a full cycle, the
    triple (0, 1, 3) does not, and two residual half cycles are drained from
    the top of the stack. *)
Example rainflow_nested :
  rainflow [0; 2; 1; 3; 0] 0.1
  = Some ([mkCycle 1 1 1; mkCycle 1 2 0.5; mkCycle 0.5 0.5 0.5], 3%nat).
Proof.
  assert (X : extrema_of [0; 2; 1; 3; 0] = [0%Z; 1%Z; 2%Z; 3%Z; 4%Z]).
  { unfold extrema_of, peaks_of, valleys_of, np_where, mask_and. Reval. reflexivity. }
  unfold rainflow. rewrite X. unfold signal_at, np_getitem. Reval.
  repeat f_equal; lra.
Qed.

(** A plateau: the peak is the sample at which the rise ends. *)
Example extrema_of_plateau : extrema_of [0; 1; 1; 0] = [0%Z; 1%Z; 3%Z].
Proof. unfold extrema_of, peaks_of, valleys_of, np_where, mask_and. Reval. reflexivity. Qed.

(** Fewer than three samples have no interior extremum and give no cycle,
    whatever their swing. *)
Example rainflow_two_samples : rainflow [0; 100] 0.1 = Some ([], 0%nat).
Proof. reflexivity. Qed.

(** ** The rainflow extractor *)

Section RainflowFacts.
Variable signal : list R.
Variable extrema : list Z.
Variable min_delta_T : R.

Lemma np_getitem_In (e : Z) (x : R) : np_getitem signal e = Some x -> In x signal.
Proof.
  unfold np_getitem.
  destruct (e <? 0)%Z; [destruct (- e <=? Z.of_nat (length signal))%Z|];
    try discriminate; apply nth_error_In.
Qed.

Lemma signal_at_In (i : nat) (x : R) : signal_at signal extrema i = Some x -> In x signal.
Proof.
  unfold signal_at. intros H. apply bind_Some in H.
  destruct H as [e [_ H]]. exact (np_getitem_In e x H).
Qed.

Lemma reduce_stack_step (i3 i2 i1 : nat) (rest : list nat) (cycles : list Cycle) :
  reduce_stack signal extrema min_delta_T i3 (i2 :: i1 :: rest) cycles =
  do x1 <- signal_at signal extrema i1;
  do x2 <- signal_at signal extrema i2;
  do x3 <- signal_at signal extrema i3;
  if Rgeb (Rabs (x2 - x1)) min_delta_T && Rleb (Rabs (x3 - x2)) (Rabs (x2 - x1))
  then reduce_stack signal extrema min_delta_T i3 (i1 :: rest)
         (cycles ++ [mkCycle (Rabs (x2 - x1) / 2) ((x1 + x2) / 2) 1])
  else Some (i3 :: i2 :: i1 :: rest, cycles).
Proof. reflexivity. Qed.

Lemma drain_stack_step (i2 i1 : nat) (rest : list nat) (cycles : list Cycle) :
  drain_stack signal extrema min_delta_T (i2 :: i1 :: rest) cycles =
  do x1 <- signal_at signal extrema i1;
  do x2 <- signal_at signal extrema i2;
  if Rgeb (Rabs (x2 - x1)) min_delta_T
  then drain_stack signal extrema min_delta_T (i1 :: rest)
         (cycles ++ [mkCycle (Rabs (x2 - x1) / 2) ((x1 + x2) / 2) 0.5])
  else drain_stack signal extrema min_delta_T (i1 :: rest) cycles.
Proof. reflexivity. Qed.

Lemma reduce_stack_emitted (i3 : nat) (below : list nat) :
  forall (cycles : list Cycle) (st : list nat * list Cycle),
  reduce_stack signal extrema min_delta_T i3 below cycles = Some st ->
  Forall (emitted signal min_delta_T) cycles -> Forall (emitted signal min_delta_T) (snd st).
Proof.
  induction below as [|i2 below IH]; intros cycles st H Hc.
  - inversion H; subst; exact Hc.
  - destruct below as [|i1 rest].
    + inversion H; subst; exact Hc.
    + rewrite reduce_stack_step in H.
      apply bind_Some in H; destruct H as [x1 [H1 H]].
      apply bind_Some in H; destruct H as [x2 [H2 H]].
      apply bind_Some in H; destruct H as [x3 [H3 H]].
      destruct (Rgeb (Rabs (x2 - x1)) min_delta_T) eqn:Eg; simpl in H;
        [destruct (Rleb (Rabs (x3 - x2)) (Rabs (x2 - x1)))|].
      * apply (IH _ _ H). apply Forall_app; split; [exact Hc|].
        constructor; [|constructor].
        exists x1, x2, 1. apply Rgeb_true in Eg.
        repeat split; eauto using signal_at_In.
      * inversion H; subst; exact Hc.
      * inversion H; subst; exact Hc.
Qed.

Lemma push_all_emitted (indices : list nat) :
  forall (stack : list nat) (cycles : list Cycle) (st : list nat * list Cycle),
  push_all signal extrema min_delta_T indices stack cycles = Some st ->
  Forall (emitted signal min_delta_T) cycles -> Forall (emitted signal min_delta_T) (snd st).
Proof.
  induction indices as [|i indices IH]; intros stack cycles st H Hc.
  - inversion H; subst; exact Hc.
  - cbn [push_all] in H. apply bind_Some in H; destruct H as [st1 [H1 H]].
    apply (IH _ _ _ H). exact (reduce_stack_emitted _ _ _ _ H1 Hc).
Qed.

Lemma drain_stack_emitted (stack : list nat) :
  forall (cycles out : list Cycle),
  drain_stack signal extrema min_delta_T stack cycles = Some out ->
  Forall (emitted signal min_delta_T) cycles -> Forall (emitted signal min_delta_T) out.
Proof.
  induction stack as [|i2 stack IH]; intros cycles out H Hc.
  - inversion H; subst; exact Hc.
  - destruct stack as [|i1 rest].
    + inversion H; subst; exact Hc.
    + rewrite drain_stack_step in H.
      apply bind_Some in H; destruct H as [x1 [H1 H]].
      apply bind_Some in H; destruct H as [x2 [H2 H]].
      destruct (Rgeb (Rabs (x2 - x1)) min_delta_T) eqn:Eg.
      * apply (IH _ _ H). apply Forall_app; split; [exact Hc|].
        constructor; [|constructor].
        exists x1, x2, 0.5. apply Rgeb_true in Eg.
        repeat split; eauto using signal_at_In.
      * apply (IH _ _ H). exact Hc.
Qed.

Lemma reduce_stack_total (i3 : nat) (below : list nat) :
  forall cycles : list Cycle,
  Forall (readable signal extrema) (i3 :: below) ->
  exists st, reduce_stack signal extrema min_delta_T i3 below cycles = Some st /\
             Forall (readable signal extrema) (fst st).
Proof.
  induction below as [|i2 below IH]; intros cycles Hr.
  - eexists; split; [reflexivity|exact Hr].
  - destruct below as [|i1 rest].
    + eexists; split; [reflexivity|exact Hr].
    + rewrite reduce_stack_step.
      pose proof Hr as Hr'.
      inversion Hr' as [|? ? [x3 H3] Hr2]; subst.
      inversion Hr2 as [|? ? [x2 H2] Hr1]; subst.
      inversion Hr1 as [|? ? [x1 H1] _]; subst.
      rewrite H1, H2, H3. cbn [bind].
      destruct (Rgeb (Rabs (x2 - x1)) min_delta_T
                && Rleb (Rabs (x3 - x2)) (Rabs (x2 - x1))).
      * apply IH. constructor; [eexists; exact H3|exact Hr1].
      * eexists; split; [reflexivity|exact Hr].
Qed.

Lemma push_all_total (indices : list nat) :
  forall (stack : list nat) (cycles : list Cycle),
  Forall (readable signal extrema) indices -> Forall (readable signal extrema) stack ->
  exists st, push_all signal extrema min_delta_T indices stack cycles = Some st /\
             Forall (readable signal extrema) (fst st).
Proof.
  induction indices as [|i indices IH]; intros stack cycles Hi Hs.
  - eexists; split; [reflexivity|exact Hs].
  - cbn [push_all]. inversion Hi; subst.
    destruct (reduce_stack_total i stack cycles) as [st [E Hst]];
      [constructor; assumption|].
    rewrite E. cbn [bind]. apply IH; assumption.
Qed.

Lemma drain_stack_total (stack : list nat) :
  forall cycles : list Cycle,
  Forall (readable signal extrema) stack ->
  exists out, drain_stack signal extrema min_delta_T stack cycles = Some out.
Proof.
  induction stack as [|i2 stack IH]; intros cycles Hr.
  - eexists; reflexivity.
  - destruct stack as [|i1 rest].
    + eexists; reflexivity.
    + rewrite drain_stack_step.
      inversion Hr as [|? ? [x2 H2] Hr1]; subst.
      inversion Hr1 as [|? ? [x1 H1] _]; subst.
      rewrite H1, H2. cbn [bind].
      destruct (Rgeb (Rabs (x2 - x1)) min_delta_T); apply IH; exact Hr1.
Qed.
End RainflowFacts.

(** *** The reduced signal *)

Lemma np_diff_length (signal : list R) :
  length (np_diff signal) = (length signal - 1)%nat.
Proof.
  induction signal as [|a signal IH]; [reflexivity|].
  destruct signal as [|b rest]; [reflexivity|].
  change (np_diff (a :: b :: rest)) with ((b - a) :: np_diff (b :: rest)).
  cbn [length] in *. rewrite IH. lia.
Qed.

Lemma np_where_from_range (mask : list bool) :
  forall k z : Z, In z (np_where_from k mask) ->
  (k <= z < k + Z.of_nat (length mask))%Z.
Proof.
  induction mask as [|b mask IH]; intros k z H; [destruct H|].
  cbn [np_where_from] in H. cbn [length].
  destruct b; [destruct H as [H|H]|].
  - subst; lia.
  - apply IH in H; lia.
  - apply IH in H; lia.
Qed.

Lemma mask_and_length (m1 m2 : list bool) :
  (length (mask_and m1 m2) <= length m2)%nat.
Proof.
  unfold mask_and. rewrite length_map, length_combine. apply Nat.le_min_r.
Qed.

Lemma shifted_mask_range (signal : list R) (f g : R -> bool) (z : Z) :
  In z (map (fun k => (k + 1)%Z)
          (np_where (mask_and (map f (removelast (np_diff signal)))
                              (map g (tl (np_diff signal)))))) ->
  (1 <= z < Z.of_nat (length signal) - 1)%Z.
Proof.
  intros H. apply in_map_iff in H. destruct H as [k [E H]].
  apply np_where_from_range in H.
  pose proof (mask_and_length (map f (removelast (np_diff signal)))
                              (map g (tl (np_diff signal)))) as L.
  rewrite length_map in L.
  assert (Lt : length (tl (np_diff signal)) = (length signal - 2)%nat).
  { pose proof (np_diff_length signal) as D.
    destruct (np_diff signal); cbn [tl length] in *; lia. }
  lia.
Qed.

Lemma insert_sorted_In (x z : Z) (l : list Z) :
  In z (insert_sorted x l) <-> z = x \/ In z l.
Proof.
  induction l as [|y l IH]; cbn [insert_sorted].
  - simpl; intuition.
  - destruct (x <=? y)%Z; simpl in *; intuition.
Qed.

Lemma np_sort_In (z : Z) (l : list Z) : In z (np_sort l) <-> In z l.
Proof.
  induction l as [|x l IH]; cbn [np_sort]; [reflexivity|].
  rewrite insert_sorted_In. simpl. intuition.
Qed.

Lemma insert_sorted_length (x : Z) (l : list Z) :
  length (insert_sorted x l) = S (length l).
Proof.
  induction l as [|y l IH]; cbn [insert_sorted]; [reflexivity|].
  destruct (x <=? y)%Z; cbn [length]; auto.
Qed.

Lemma np_sort_length (l : list Z) : length (np_sort l) = length l.
Proof.
  induction l as [|x l IH]; cbn [np_sort]; [reflexivity|].
  rewrite insert_sorted_length, IH; reflexivity.
Qed.

(** The reduced signal always holds the two end points. *)
Lemma extrema_of_length (signal : list R) : (2 <= length (extrema_of signal))%nat.
Proof.
  unfold extrema_of. rewrite np_sort_length, !length_app. simpl. lia.
Qed.

Lemma extrema_of_range (signal : list R) (z : Z) :
  signal <> [] -> In z (extrema_of signal) ->
  (0 <= z < Z.of_nat (length signal))%Z.
Proof.
  intros Hs H. unfold extrema_of in H. apply (proj1 (np_sort_In _ _)) in H.
  assert (0 < length signal)%nat by (destruct signal; simpl; [congruence|lia]).
  apply in_app_or in H. destruct H as [H|H]; [|apply in_app_or in H; destruct H as [H|H]].
  - apply shifted_mask_range in H. lia.
  - apply shifted_mask_range in H. lia.
  - simpl in H. lia.
Qed.

Lemma extrema_of_readable (signal : list R) (i : nat) :
  signal <> [] -> (i < length (extrema_of signal))%nat ->
  readable signal (extrema_of signal) i.
Proof.
  intros Hs Hi. unfold readable, signal_at.
  destruct (nth_error (extrema_of signal) i) as [e|] eqn:E;
    [|apply nth_error_None in E; lia].
  cbn [bind]. apply nth_error_In in E. apply extrema_of_range in E; [|exact Hs].
  unfold np_getitem. destruct (Z.ltb_spec e 0); [lia|].
  destruct (nth_error signal (Z.to_nat e)) eqn:N; [eauto|].
  apply nth_error_None in N. lia.
Qed.

(** [rainflow] raises no [IndexError]: it returns, on every signal, and
    every record it returns is built from two values of the signal whose
    distance reaches the threshold. *)
Lemma rainflow_returns (signal : list R) (min_delta_T : R) :
  exists cycles : list Cycle,
    rainflow signal min_delta_T = Some (cycles, length cycles) /\
    Forall (emitted signal min_delta_T) cycles.
Proof.
  destruct signal as [|s0 signal'] eqn:Es.
  - exists []. split; [reflexivity|constructor].
  - rewrite <- Es. assert (Hs : signal <> []) by (subst; discriminate).
    clear Es. unfold rainflow.
    destruct (push_all_total signal (extrema_of signal) min_delta_T
                (seq 0 (length (extrema_of signal) - 1)) [] [])
      as [st [E Hst]].
    + apply Forall_forall. intros i Hi. apply in_seq in Hi.
      apply extrema_of_readable; [exact Hs|lia].
    + constructor.
    + rewrite E. cbn [bind].
      destruct (drain_stack_total signal (extrema_of signal) min_delta_T
                  (fst st) (snd st) Hst) as [out Eo].
      rewrite Eo. cbn [bind]. exists out. split; [reflexivity|].
      apply (drain_stack_emitted _ _ _ _ _ _ Eo).
      apply (push_all_emitted _ _ _ _ _ _ _ E). constructor.
Qed.

(** C9.  On every signal [rainflow] returns, and every record it returns,
    full cycle or residual half cycle, has an amplitude of at least
    [min_delta_T / 2] and a weight of 1 or 0.5. *)
Theorem rainflow_cycles_meet_threshold (signal : list R) (min_delta_T : R) :
  exists cycles : list Cycle,
    rainflow signal min_delta_T = Some (cycles, length cycles) /\
    Forall (fun c => min_delta_T / 2 <= amplitude c /\
                     (weight c = 1 \/ weight c = 0.5)) cycles.
Proof.
  destruct (rainflow_returns signal min_delta_T) as [cycles [E H]].
  exists cycles. split; [exact E|].
  apply Forall_impl with (2 := H).
  intros c [x1 [x2 [w [_ [_ [Hd [Hw Ec]]]]]]]. subst c. simpl.
  split; [lra|exact Hw].
Qed.

(** *** The threshold and the swing of the signal *)

Lemma np_max_upper (signal : list R) (d x : R) :
  In x signal -> x <= fold_right Rmax d signal.
Proof.
  induction signal as [|a signal IH]; intros H; [destruct H|].
  cbn [fold_right]. destruct H as [H|H].
  - subst. apply Rmax_l.
  - eapply Rle_trans; [exact (IH H)|apply Rmax_r].
Qed.

Lemma np_min_lower (signal : list R) (d x : R) :
  In x signal -> fold_right Rmin d signal <= x.
Proof.
  induction signal as [|a signal IH]; intros H; [destruct H|].
  cbn [fold_right]. destruct H as [H|H].
  - subst. apply Rmin_l.
  - eapply Rle_trans; [apply Rmin_r|exact (IH H)].
Qed.

Lemma peak_to_peak_bound (signal : list R) (x1 x2 : R) :
  In x1 signal -> In x2 signal -> Rabs (x2 - x1) <= peak_to_peak signal.
Proof.
  intros H1 H2. unfold peak_to_peak, np_max, np_min.
  pose proof (np_max_upper signal (hd 0 signal) x1 H1).
  pose proof (np_max_upper signal (hd 0 signal) x2 H2).
  pose proof (np_min_lower signal (hd 0 signal) x1 H1).
  pose proof (np_min_lower signal (hd 0 signal) x2 H2).
  apply Rabs_le. lra.
Qed.

(** C4, as the code has it.  A signal whose peak-to-peak swing is strictly
    below [min_delta_T] yields no cycle: an empty list and a count of zero. *)
Theorem rainflow_swing_below_threshold (signal : list R) (min_delta_T : R) :
  peak_to_peak signal < min_delta_T ->
  rainflow signal min_delta_T = Some ([], 0%nat).
Proof.
  intros Hs.
  destruct (rainflow_returns signal min_delta_T) as [cycles [E H]].
  destruct cycles as [|c cycles]; [exact E|].
  inversion H as [|? ? [x1 [x2 [w [H1 [H2 [Hd _]]]]]] _]; subst.
  pose proof (peak_to_peak_bound signal x1 x2 H1 H2). lra.
Qed.

Lemma rainflow_swing_below_threshold_witness :
  peak_to_peak [0; 0.05; 0] < 0.1 /\
  rainflow [0; 0.05; 0] 0.1 = Some ([], 0%nat).
Proof.
  assert (H : peak_to_peak [0; 0.05; 0] < 0.1).
  { unfold peak_to_peak, np_max, np_min. Reval. lra. }
  split; [exact H|].
  apply (rainflow_swing_below_threshold [0; 0.05; 0] 0.1 H).
Defined.

(** C4, as the claim has it, fails: a single excursion of 0.15 is a swing
    below twice the threshold of 0.1 and yields a residual half cycle. *)
Lemma rainflow_swing_below_twice_threshold :
  peak_to_peak [0; 0.15; 0] < 2 * 0.1 /\
  rainflow [0; 0.15; 0] 0.1 = Some ([mkCycle 0.075 0.075 0.5], 1%nat) /\
  rainflow [0; 0.15; 0] 0.1 <> Some ([], 0%nat).
Proof.
  assert (E : rainflow [0; 0.15; 0] 0.1 = Some ([mkCycle 0.075 0.075 0.5], 1%nat)).
  { assert (X : extrema_of [0; 0.15; 0] = [0%Z; 1%Z; 2%Z]).
    { unfold extrema_of, peaks_of, valleys_of, np_where, mask_and. Reval. reflexivity. }
    unfold rainflow. rewrite X. unfold signal_at, np_getitem. Reval.
    repeat f_equal; lra. }
  split; [|split].
  - unfold peak_to_peak, np_max, np_min. Reval. lra.
  - exact E.
  - rewrite E. discriminate.
Qed.

(** The bound of [min_delta_T] is the largest that works: a single
    excursion whose swing reaches the threshold yields a half cycle. *)
Lemma rainflow_threshold_tight (min_delta_T swing : R) :
  0 < min_delta_T -> min_delta_T <= swing ->
  rainflow [0; swing; 0] min_delta_T
  = Some ([mkCycle (swing / 2) (swing / 2) 0.5], 1%nat).
Proof.
  intros Hm Hs.
  assert (X : extrema_of [0; swing; 0] = [0%Z; 1%Z; 2%Z]).
  { unfold extrema_of, peaks_of, valleys_of, np_where, mask_and. Reval. reflexivity. }
  unfold rainflow. rewrite X. unfold signal_at, np_getitem. Reval.
  repeat f_equal; lra.
Qed.

(** *** Which extrema reach the stack *)

Lemma reduce_stack_incl (signal : list R) (extrema : list Z) (min_delta_T : R)
    (i3 : nat) (below : list nat) :
  forall (cycles : list Cycle) (st : list nat * list Cycle),
  reduce_stack signal extrema min_delta_T i3 below cycles = Some st ->
  incl (fst st) (i3 :: below).
Proof.
  induction below as [|i2 below IH]; intros cycles st H.
  - inversion H; subst; apply incl_refl.
  - destruct below as [|i1 rest].
    + inversion H; subst; apply incl_refl.
    + rewrite reduce_stack_step in H.
      apply bind_Some in H; destruct H as [x1 [_ H]].
      apply bind_Some in H; destruct H as [x2 [_ H]].
      apply bind_Some in H; destruct H as [x3 [_ H]].
      destruct (Rgeb (Rabs (x2 - x1)) min_delta_T
                && Rleb (Rabs (x3 - x2)) (Rabs (x2 - x1))).
      * apply IH in H. intros k Hk. apply H in Hk.
        destruct Hk as [Hk|Hk]; [left; exact Hk|right; right; exact Hk].
      * inversion H; subst; apply incl_refl.
Qed.

Lemma push_all_incl (signal : list R) (extrema : list Z) (min_delta_T : R)
    (indices : list nat) :
  forall (stack : list nat) (cycles : list Cycle) (st : list nat * list Cycle),
  push_all signal extrema min_delta_T indices stack cycles = Some st ->
  incl (fst st) (indices ++ stack).
Proof.
  induction indices as [|i indices IH]; intros stack cycles st H.
  - inversion H; subst; apply incl_refl.
  - cbn [push_all] in H. apply bind_Some in H; destruct H as [st1 [H1 H]].
    apply IH in H. apply reduce_stack_incl in H1.
    intros k Hk. apply H in Hk. apply in_app_or in Hk.
    destruct Hk as [Hk|Hk].
    + right. apply in_or_app. left. exact Hk.
    + apply H1 in Hk. destruct Hk as [Hk|Hk];
        [left; exact Hk|right; apply in_or_app; right; exact Hk].
Qed.

(** On no signal does the index of the last extremum reach the stack of
    [rainflow]. *)
Lemma rainflow_stack_excludes_last
    (signal : list R) (min_delta_T : R) (st : list nat * list Cycle) :
  push_all signal (extrema_of signal) min_delta_T
    (seq 0 (length (extrema_of signal) - 1)) [] [] = Some st ->
  ~ In (length (extrema_of signal) - 1)%nat (fst st).
Proof.
  intros H Hin. apply push_all_incl in H. apply H in Hin.
  rewrite app_nil_r in Hin. apply in_seq in Hin. lia.
Qed.

(** C3.  On the signal [0, 1, 0] the reduced signal is its three samples.
    The code pushes the first two only, since the loop of line 14 stops one
    short of the list it built in line 10, and is left with a residual half
    cycle; pushing every extremum, as the specification words it, closes
    the excursion into one full cycle. *)
Theorem rainflow_never_pushes_last_extremum :
  extrema_of [0; 1; 0] = [0%Z; 1%Z; 2%Z] /\
  rainflow [0; 1; 0] 0.1 = Some ([mkCycle 0.5 0.5 0.5], 1%nat) /\
  rainflow_all_extrema [0; 1; 0] 0.1 = Some ([mkCycle 0.5 0.5 1], 1%nat).
Proof.
  split; [exact extrema_of_peak|split; [exact rainflow_peak|]].
  unfold rainflow_all_extrema. rewrite extrema_of_peak.
  unfold signal_at, np_getitem. Reval.
  repeat f_equal; lra.
Qed.

(** ** Cycles to failure *)

Lemma exp_le (x y : R) : x <= y -> exp x <= exp y.
Proof.
  intros [H|H]; [left; apply exp_increasing; exact H|subst; right; reflexivity].
Qed.

Lemma exp_INR_bound (k : nat) : exp (INR k) <= 3 ^ k.
Proof.
  induction k as [|k IH].
  - simpl. rewrite exp_0. lra.
  - rewrite S_INR, exp_plus. cbn [pow].
    pose proof (exp_pos (INR k)). pose proof exp_le_3. pose proof (exp_pos 1).
    rewrite (Rmult_comm 3). apply Rmult_le_compat; lra.
Qed.

Lemma Rpower_pos (x y : R) : 0 < Rpower x y.
Proof. unfold Rpower. apply exp_pos. Qed.

(** A negative power decreases strictly in a positive base. *)
Lemma Rpower_neg_decreasing (a b e : R) :
  0 < e -> 0 < a < b -> Rpower b (- e) < Rpower a (- e).
Proof.
  intros He Hab. rewrite !Rpower_Ropp.
  apply Rinv_lt_contravar.
  - apply Rmult_lt_0_compat; apply Rpower_pos.
  - apply Rlt_Rpower_l; assumption.
Qed.

Lemma calculate_cycles_to_failure_clamp
    (delta_T T_mean : R) (params : LifetimeParams.t) :
  calculate_cycles_to_failure delta_T T_mean params
  = Rmax (unclamped_cycles_to_failure delta_T T_mean params) 1.
Proof. reflexivity. Qed.

Lemma calculate_cycles_to_failure_ge_1
    (delta_T T_mean : R) (params : LifetimeParams.t) :
  1 <= calculate_cycles_to_failure delta_T T_mean params.
Proof. rewrite calculate_cycles_to_failure_clamp. apply Rmax_r. Qed.

(** C6, as the code has it.  For a positive exponent and amplitudes
    [0 < dT1 < dT2] at one mean temperature, the cycles to failure at [dT2]
    are strictly fewer than at [dT1], unless both values sit on the clamp
    of 1. *)
Theorem calculate_cycles_to_failure_decreasing
    (dT1 dT2 T_mean : R) (params : LifetimeParams.t) :
  0 < LifetimeParams.n params ->
  0 < dT1 -> dT1 < dT2 ->
  calculate_cycles_to_failure dT2 T_mean params
    < calculate_cycles_to_failure dT1 T_mean params
  \/ (calculate_cycles_to_failure dT1 T_mean params = 1 /\
      calculate_cycles_to_failure dT2 T_mean params = 1).
Proof.
  intros Hn H1 H12.
  rewrite !calculate_cycles_to_failure_clamp.
  unfold unclamped_cycles_to_failure.
  set (E := exp _).
  assert (HE : 0 < E) by apply exp_pos.
  pose proof (Rpower_neg_decreasing dT1 dT2 _ Hn (conj H1 H12)) as Hp.
  pose proof (Rpower_pos dT2 (- LifetimeParams.n params)) as Hp2.
  set (p1 := Rpower dT1 _) in *. set (p2 := Rpower dT2 _) in *.
  set (A := LifetimeParams.A params).
  destruct (Rle_lt_dec A 0) as [HA|HA].
  - right.
    assert (0 <= - A * p1 * E) by
      (apply Rmult_le_pos; [apply Rmult_le_pos|]; lra).
    assert (0 <= - A * p2 * E) by
      (apply Rmult_le_pos; [apply Rmult_le_pos|]; lra).
    rewrite !Rmax_right by lra. split; reflexivity.
  - assert (Hf : A * p2 * E < A * p1 * E).
    { apply Rmult_lt_compat_r; [exact HE|].
      apply Rmult_lt_compat_l; [exact HA|exact Hp]. }
    destruct (Rle_lt_dec (A * p1 * E) 1) as [Hc|Hc].
    + right. rewrite !Rmax_right by lra. split; reflexivity.
    + left. rewrite (Rmax_left (A * p1 * E)) by lra.
      apply Rmax_lub_lt; lra.
Qed.

Lemma calculate_cycles_to_failure_decreasing_witness :
  calculate_cycles_to_failure 2 50 (LIFETIME_PARAMS SPB20N60C3)
    < calculate_cycles_to_failure 1 50 (LIFETIME_PARAMS SPB20N60C3)
  \/ (calculate_cycles_to_failure 1 50 (LIFETIME_PARAMS SPB20N60C3) = 1 /\
      calculate_cycles_to_failure 2 50 (LIFETIME_PARAMS SPB20N60C3) = 1).
Proof.
  apply (calculate_cycles_to_failure_decreasing 1 2 50 (LIFETIME_PARAMS SPB20N60C3));
    simpl; lra.
Defined.

(** With the shipped SPB20N60C3 constants and a mean of 50 degrees, every
    amplitude from 2000 on is clamped. *)
Lemma calculate_cycles_to_failure_clamped (delta_T : R) :
  2000 <= delta_T ->
  calculate_cycles_to_failure delta_T 50 (LIFETIME_PARAMS SPB20N60C3) = 1.
Proof.
  intros Hd. rewrite calculate_cycles_to_failure_clamp.
  apply Rmax_right. unfold unclamped_cycles_to_failure. cbn [LIFETIME_PARAMS SPB20N60C3
    LifetimeParams.A LifetimeParams.n LifetimeParams.Ea].
  unfold boltzmann_constant.
  set (x := 0.54 / _).
  assert (Hx : exp x <= 3 ^ 20).
  { eapply Rle_trans; [|apply (exp_INR_bound 20)].
    apply exp_le. unfold x. simpl INR. lra. }
  assert (Hp : Rpower delta_T (Ropp 5.1) <= / 2000 ^ 5).
  { rewrite Rpower_Ropp. apply Rinv_le_contravar; [lra|].
    apply Rle_trans with (Rpower delta_T (INR 5)).
    - rewrite Rpower_pow by lra. apply pow_incr. lra.
    - apply Rle_Rpower; [lra|simpl INR; lra]. }
  pose proof (exp_pos x). pose proof (Rpower_pos delta_T (Ropp 5.1)).
  apply Rle_trans with (3.5e5 * / 2000 ^ 5 * 3 ^ 20); [|lra].
  apply Rmult_le_compat; lra.
Qed.

(** C6, as the claim has it, fails: with the shipped SPB20N60C3 constants
    the amplitudes 2000 and 3000 both give the clamp value 1. *)
Lemma calculate_cycles_to_failure_not_strict :
  0 < LifetimeParams.n (LIFETIME_PARAMS SPB20N60C3) /\
  0 < 2000 < 3000 /\
  ~ (calculate_cycles_to_failure 3000 50 (LIFETIME_PARAMS SPB20N60C3)
     < calculate_cycles_to_failure 2000 50 (LIFETIME_PARAMS SPB20N60C3)).
Proof.
  split; [simpl; lra|split; [lra|]].
  rewrite !calculate_cycles_to_failure_clamped by lra. lra.
Qed.

(** ** Damage and lifetime *)

(** C5, as the code has it.  With the default [cycles_per_year] of 100000,
    every positive damage up to the floor of [1e-10] is mapped to exactly
    100 years. *)
Theorem estimate_lifetime_years_at_floor (degradation : R) :
  0 < degradation -> degradation <= 1e-10 ->
  estimate_lifetime_years degradation default_cycles_per_year = Finite 100.
Proof.
  intros Hpos Hle. unfold estimate_lifetime_years, default_cycles_per_year.
  rewrite (proj2 (Rleb_false degradation 0)) by exact Hpos.
  f_equal. apply Rmin_right.
  assert (H : / 1e-10 <= / degradation) by (apply Rinv_le_contravar; lra).
  unfold Rdiv. rewrite Rmult_1_l.
  apply Rle_trans with (/ 1e-10 * / 100000); [lra|].
  apply Rmult_le_compat_r; [lra|exact H].
Qed.

Lemma estimate_lifetime_years_at_floor_witness :
  estimate_lifetime_years 1e-10 default_cycles_per_year = Finite 100.
Proof.
  apply (estimate_lifetime_years_at_floor 1e-10); lra.
Defined.

(** C5, as the claim has it, fails: a damage of zero is below the floor
    and is mapped to an unbounded lifetime by the guard of line 64. *)
Lemma estimate_lifetime_years_zero_damage :
  0 <= 1e-10 /\
  estimate_lifetime_years 0 default_cycles_per_year = Infinite /\
  estimate_lifetime_years 0 default_cycles_per_year <> Finite 100.
Proof.
  assert (E : estimate_lifetime_years 0 default_cycles_per_year = Infinite).
  { unfold estimate_lifetime_years. rewrite (proj2 (Rleb_true 0 0)) by lra.
    reflexivity. }
  split; [lra|split; [exact E|rewrite E; discriminate]].
Qed.

(** The guard of line 64: a damage of zero or less is an unbounded
    lifetime. *)
Lemma estimate_lifetime_years_unbounded (degradation : R) (cycles_per_year : Z) :
  degradation <= 0 ->
  estimate_lifetime_years degradation cycles_per_year = Infinite.
Proof.
  intros H. unfold estimate_lifetime_years.
  rewrite (proj2 (Rleb_true degradation 0)) by exact H. reflexivity.
Qed.

(** No cycle, no damage: the floor applies to a non-empty list only. *)
Lemma miners_rule_degradation_empty (params : LifetimeParams.t) :
  miners_rule_degradation [] params = (0, []).
Proof. reflexivity. Qed.

Lemma miners_rule_degradation_floor
    (cycles : list Cycle) (params : LifetimeParams.t) :
  cycles <> [] -> 1e-10 <= fst (miners_rule_degradation cycles params).
Proof.
  intros Hc. unfold miners_rule_degradation.
  destruct cycles as [|c cycles]; [congruence|]. cbn [length Nat.eqb].
  destruct (miners_loop (c :: cycles) params 0 []) as [damage ctf].
  cbn [fst]. apply Rmax_r.
Qed.

Lemma estimate_lifetime_years_finite (degradation : R) (cycles_per_year : Z) :
  0 < degradation -> (0 < cycles_per_year)%Z ->
  exists years : R,
    estimate_lifetime_years degradation cycles_per_year = Finite years /\
    0 < years <= 100.
Proof.
  intros Hd Hc. unfold estimate_lifetime_years.
  rewrite (proj2 (Rleb_false degradation 0)) by exact Hd.
  eexists. split; [reflexivity|]. split; [|apply Rmin_r].
  apply Rmin_glb_lt; [|lra].
  apply Rdiv_lt_0_compat; [apply Rdiv_lt_0_compat; lra|].
  apply IZR_lt. exact Hc.
Qed.

(** C10.  Whenever [rainflow] extracts at least one cycle from a
    junction-temperature trajectory, [estimate_lifetime] returns a damage of
    at least [1e-10] and a finite lifetime, positive and at most 100
    years. *)
Theorem estimate_lifetime_finite
    (t_j : list R) (lifetime_params : LifetimeParams.t)
    (temp_cycles : list Cycle) (total_cycles : nat) :
  rainflow t_j 0.1 = Some (temp_cycles, total_cycles) ->
  temp_cycles <> [] ->
  exists (degradation years : R) (cycles_to_failure : list (R * R)),
    estimate_lifetime t_j lifetime_params
      = Some (degradation, Finite years, total_cycles, cycles_to_failure) /\
    1e-10 <= degradation /\
    0 < years <= 100.
Proof.
  intros Hr Hc. unfold estimate_lifetime. rewrite Hr. cbn [bind].
  pose proof (miners_rule_degradation_floor temp_cycles lifetime_params Hc) as Hf.
  destruct (miners_rule_degradation temp_cycles lifetime_params) as [degradation ctf].
  cbn [fst] in Hf.
  destruct (estimate_lifetime_years_finite degradation default_cycles_per_year)
    as [years [Ey Hy]]; [lra|reflexivity|].
  rewrite Ey. exists degradation, years, ctf.
  split; [reflexivity|split; [exact Hf|exact Hy]].
Qed.

Lemma estimate_lifetime_finite_witness :
  exists (degradation years : R) (cycles_to_failure : list (R * R)),
    estimate_lifetime [0; 1; 0] (LIFETIME_PARAMS SPB20N60C3)
      = Some (degradation, Finite years, 1%nat, cycles_to_failure) /\
    1e-10 <= degradation /\
    0 < years <= 100.
Proof.
  apply (estimate_lifetime_finite [0; 1; 0] (LIFETIME_PARAMS SPB20N60C3)
           [mkCycle 0.5 0.5 0.5] 1 rainflow_peak).
  discriminate.
Defined.

(** ** Waveform construction *)

(** C8, as the code has it.  [create_interpolation_function] checks
    neither the number of samples nor the order of their times and never
    fails with [InvalidWaveformError]: on an empty sequence the unpacking
    fails with [ValueError], and every other sequence, a single sample or
    decreasing times included, goes unchanged to [interp1d]. *)
Theorem create_interpolation_function_unchecked (waveform : list (R * R)) :
  create_interpolation_function waveform <> Raise InvalidWaveformError /\
  (waveform = [] <-> create_interpolation_function waveform = Raise ValueError) /\
  (waveform <> [] <->
   create_interpolation_function waveform
   = Interp1d (map fst waveform) (map snd waveform)).
Proof.
  destruct waveform as [|s waveform]; simpl.
  - repeat split; try discriminate; try congruence.
  - repeat split; try discriminate; try congruence.
Qed.

(** C8, as the claim has it, fails: the empty waveform fails with
    [ValueError], and the one-sample waveform [(0, 0)] and the waveform
    [(1, 0), (0, 0)] of decreasing times do not fail in the function at
    all. *)
Lemma create_interpolation_function_no_validation :
  ((length (@nil (R * R)) < 2)%nat /\
   create_interpolation_function [] = Raise ValueError /\
   create_interpolation_function [] <> Raise InvalidWaveformError) /\
  ((length [(0, 0)] < 2)%nat /\
   create_interpolation_function [(0, 0)] = Interp1d [0] [0] /\
   create_interpolation_function [(0, 0)] <> Raise InvalidWaveformError) /\
  (~ strictly_increasing (map fst [(1, 0); (0, 0)]) /\
   create_interpolation_function [(1, 0); (0, 0)] = Interp1d [1; 0] [0; 0] /\
   create_interpolation_function [(1, 0); (0, 0)] <> Raise InvalidWaveformError).
Proof.
  split; [|split].
  - split; [simpl; lia|split; [reflexivity|discriminate]].
  - split; [simpl; lia|split; [reflexivity|discriminate]].
  - split; [|split; [reflexivity|discriminate]].
    intros H. specialize (H 0%nat 1%nat). simpl in H.
    assert (1 < 0) by (apply H; lia). lra.
Qed.

(** * Further properties of the code *)

(** ** The power model at its edges *)

(** X1.  With no voltage and no current the conduction and the capacitive
    loss are zero, and the total is the output-capacitance energy at the
    junction temperature times the switching frequency: an idle device
    still dissipates. *)
Theorem calculate_power_dissipation_idle
    (t_j : R) (params : MOSFETParams.t) (f_sw : R) :
  let e := E_OSS_25 params * (1 + K_E_OSS params * (t_j - 25)) * f_sw in
  calculate_power_dissipation 0 0 t_j params f_sw = (e, 0, e, 0).
Proof.
  intros e. unfold calculate_power_dissipation, e.
  apply f_equal2; [apply f_equal2; [apply f_equal2|]|]; lra.
Qed.

(** X2.  The conduction loss does not depend on the switching frequency;
    the switching and the capacitive loss are proportional to it. *)
Theorem calculate_power_dissipation_frequency
    (v_ds i_d t_j : R) (params : MOSFETParams.t) (f_sw k : R) :
  let p := calculate_power_dissipation v_ds i_d t_j params f_sw in
  let p_cond := snd (fst (fst p)) in
  let p_sw := snd (fst p) in
  let p_cap := snd p in
  calculate_power_dissipation v_ds i_d t_j params (k * f_sw)
  = (p_cond + k * (p_sw + p_cap), p_cond, k * p_sw, k * p_cap).
Proof.
  intros p p_cond p_sw p_cap.
  unfold p_cond, p_sw, p_cap, p, calculate_power_dissipation. cbn [fst snd].
  apply f_equal2; [apply f_equal2; [apply f_equal2|]|]; ring.
Qed.

(** X3.  At zero drain current and a positive switching frequency the
    switching loss is negative exactly when the reverse-recovery term
    [v_ds * q_rr] outweighs the output-capacitance energy, which a negative
    drain voltage can make it do. *)
Theorem calculate_power_dissipation_negative_switching
    (v_ds t_j : R) (params : MOSFETParams.t) (f_sw : R) :
  0 < f_sw ->
  (snd (fst (calculate_power_dissipation v_ds 0 t_j params f_sw)) < 0 <->
   E_OSS_25 params * (1 + K_E_OSS params * (t_j - 25))
   + v_ds * (Q_RR_25 params * (1 + K_Q_RR params * (t_j - 25))) < 0).
Proof.
  intros Hf. unfold calculate_power_dissipation. cbn [fst snd].
  set (e := E_OSS_25 params * _). set (q := Q_RR_25 params * _).
  replace ((0.5 * v_ds * 0 * (T_ON_25 params * (1 + K_T_SW params * (t_j - 25)))
            + 0.5 * v_ds * 0 * (T_OFF_25 params * (1 + K_T_SW params * (t_j - 25)))
            + e + v_ds * q) * f_sw)
    with ((e + v_ds * q) * f_sw) by ring.
  split; intros H.
  - destruct (Rlt_le_dec (e + v_ds * q) 0) as [L|L]; [exact L|].
    pose proof (Rmult_le_pos _ _ L (Rlt_le _ _ Hf)). lra.
  - replace ((e + v_ds * q) * f_sw) with (- ((- (e + v_ds * q)) * f_sw)) by ring.
    assert (0 < - (e + v_ds * q) * f_sw) by (apply Rmult_lt_0_compat; lra). lra.
Qed.

(** The sample [(14.0, -302)] of the reference voltage waveform, where the
    reference current is zero, at 50 degrees on the SPB20N60C3. *)
Lemma calculate_power_dissipation_negative_switching_witness :
  snd (fst (calculate_power_dissipation (-302) 0 50 SPB20N60C3 F_SW)) < 0.
Proof.
  apply (proj2 (calculate_power_dissipation_negative_switching
                  (-302) 50 SPB20N60C3 F_SW ltac:(unfold F_SW; lra))).
  simpl. lra.
Defined.

(** ** The temperature-scaled network *)

(** X4.  Above -175 degrees the scaling keeps a network of positive
    resistances and capacitances positive, and it never changes the number
    of nodes. *)
Theorem non_linear_thermal_properties_positive (t_j : R) (params : MOSFETParams.t) :
  -175 < t_j ->
  Forall (fun r => 0 < r) (R_TH params) ->
  Forall (fun c => 0 < c) (C_TH params) ->
  let '(r_th, c_th) := non_linear_thermal_properties t_j params in
  Forall (fun r => 0 < r) r_th /\ Forall (fun c => 0 < c) c_th /\
  length r_th = length (R_TH params) /\ length c_th = length (C_TH params).
Proof.
  intros Ht Hr Hc. unfold non_linear_thermal_properties.
  rewrite !length_map. repeat split.
  - apply Forall_map. apply Forall_impl with (2 := Hr).
    intros r H. apply Rmult_lt_0_compat; lra.
  - apply Forall_map. apply Forall_impl with (2 := Hc).
    intros c H. apply Rmult_lt_0_compat; lra.
Qed.

Lemma non_linear_thermal_properties_positive_witness :
  let '(r_th, c_th) := non_linear_thermal_properties 50 SPB20N60C3 in
  Forall (fun r => 0 < r) r_th /\ Forall (fun c => 0 < c) c_th /\
  length r_th = length (R_TH SPB20N60C3) /\ length c_th = length (C_TH SPB20N60C3).
Proof.
  apply (non_linear_thermal_properties_positive 50 SPB20N60C3).
  - lra.
  - simpl. repeat constructor; lra.
  - simpl. repeat constructor; lra.
Defined.

(** The bound of -175 degrees is where the resistances vanish: there every
    scaled resistance is zero, whatever the table holds, and at -475 degrees
    every scaled capacitance is. *)
Lemma non_linear_thermal_properties_degenerate (params : MOSFETParams.t) :
  Forall (fun r => r = 0) (fst (non_linear_thermal_properties (-175) params)) /\
  Forall (fun c => c = 0) (snd (non_linear_thermal_properties (-475) params)).
Proof.
  unfold non_linear_thermal_properties. cbn [fst snd].
  split; apply Forall_map; apply Forall_forall; intros x _; lra.
Qed.

(** ** The derivative function and its indices *)

Lemma nth_error_defined {A : Type} (l : list A) (k : nat) :
  (k < length l)%nat -> exists x, nth_error l k = Some x.
Proof.
  intros Hk. destruct (nth_error l k) eqn:E; [eauto|].
  apply nth_error_None in E. lia.
Qed.

Lemma mapM_None {A B : Type} (f : A -> option B) (l : list A) (a : A) :
  In a l -> f a = None -> mapM f l = None.
Proof.
  induction l as [|a0 l IH]; intros Hin Hf; [destruct Hin|].
  cbn [mapM]. destruct Hin as [E|Hin].
  - subst. rewrite Hf. reflexivity.
  - destruct (f a0); [|reflexivity]. cbn [bind]. rewrite (IH Hin Hf). reflexivity.
Qed.

Lemma thermal_model_dy_defined
    (y r_th c_th : list R) (n : nat) (p_total p_cool t_amb : R) (i : nat) :
  (i < n)%nat -> (n <= length y)%nat -> (n <= length r_th)%nat ->
  (n <= length c_th)%nat ->
  exists d, thermal_model_dy y r_th c_th n p_total p_cool t_amb i = Some d.
Proof.
  intros Hi Hy Hr Hc. unfold thermal_model_dy.
  destruct (nth_error_defined y i) as [yi Eyi]; [lia|].
  destruct (nth_error_defined r_th i) as [r Er]; [lia|].
  destruct (nth_error_defined c_th i) as [c Ec]; [lia|].
  destruct (Nat.eqb_spec i 0) as [E0|N0];
    [|destruct (Nat.eqb_spec i (n - 1)) as [E1|N1]].
  - rewrite Eyi, Er, Ec. cbn [bind].
    destruct (Nat.ltb_spec (i + 1) n).
    + destruct (nth_error_defined y (i + 1)) as [yn Eyn]; [lia|].
      rewrite Eyn. cbn [bind]. eauto.
    + cbn [bind]. eauto.
  - destruct (nth_error_defined y (i - 1)) as [yp Eyp]; [lia|].
    rewrite Eyp, Eyi, Er, Ec. cbn [bind]. eauto.
  - destruct (nth_error_defined y (i - 1)) as [yp Eyp]; [lia|].
    destruct (nth_error_defined y (i + 1)) as [yn Eyn]; [lia|].
    destruct (nth_error_defined r_th (i + 1)) as [rn Ern]; [lia|].
    rewrite Eyp, Eyi, Eyn, Er, Ern, Ec. cbn [bind]. eauto.
Qed.

Lemma thermal_model_dy_undefined
    (y r_th c_th : list R) (n : nat) (p_total p_cool t_amb : R) (i : nat) :
  nth_error y i = None \/ nth_error c_th i = None ->
  thermal_model_dy y r_th c_th n p_total p_cool t_amb i = None.
Proof.
  intros H. unfold thermal_model_dy.
  destruct (i =? 0)%nat; [|destruct (i =? n - 1)%nat].
  - destruct (nth_error y i); [|reflexivity]. cbn [bind].
    destruct (if (i + 1 <? n)%nat then nth_error y (i + 1) else Some 0);
      [|reflexivity]. cbn [bind].
    destruct (nth_error r_th i); [|reflexivity]. cbn [bind].
    destruct H as [H|H]; [discriminate|]. rewrite H. reflexivity.
  - destruct (nth_error y (i - 1)); [|reflexivity]. cbn [bind].
    destruct (nth_error y i); [|reflexivity]. cbn [bind].
    destruct (nth_error r_th i); [|reflexivity]. cbn [bind].
    destruct H as [H|H]; [discriminate|]. rewrite H. reflexivity.
  - destruct (nth_error y (i - 1)); [|reflexivity]. cbn [bind].
    destruct (nth_error y i); [|reflexivity]. cbn [bind].
    destruct (nth_error y (i + 1)); [|reflexivity]. cbn [bind].
    destruct (nth_error r_th i); [|reflexivity]. cbn [bind].
    destruct (nth_error r_th (i + 1)); [|reflexivity]. cbn [bind].
    destruct H as [H|H]; [discriminate|]. rewrite H. reflexivity.
Qed.

(** X5.  [thermal_model] raises an [IndexError] exactly when the state is
    empty, or shorter than [R_TH], or when [C_TH] is shorter than [R_TH];
    a longer state or a longer [C_TH] is accepted. *)
Theorem thermal_model_index_error
    (t : R) (y : list R) (params : MOSFETParams.t)
    (v_ds_func i_d_func : R -> R) (t_amb f_sw : R) :
  thermal_model t y params v_ds_func i_d_func t_amb f_sw = None <->
  y = [] \/ (length y < length (R_TH params))%nat
  \/ (length (C_TH params) < length (R_TH params))%nat.
Proof.
  unfold thermal_model.
  destruct y as [|y0 ys]; [split; [intros _; left; reflexivity|reflexivity]|].
  cbn [nth_error bind]. unfold non_linear_thermal_properties.
  destruct (calculate_power_dissipation _ _ _ _ _) as [[[p ?] ?] ?].
  rewrite length_map.
  set (n := length (R_TH params)).
  set (r_th := map _ (R_TH params)). set (c_th := map _ (C_TH params)).
  assert (Lr : length r_th = n) by (unfold r_th; apply length_map).
  assert (Lc : length c_th = length (C_TH params)) by (unfold c_th; apply length_map).
  split.
  - intros H.
    destruct (le_lt_dec n (length (y0 :: ys))) as [Hy|Hy]; [|right; left; exact Hy].
    destruct (le_lt_dec n (length (C_TH params))) as [Hc|Hc]; [|right; right; exact Hc].
    exfalso.
    match type of H with mapM ?f ?l = None =>
      destruct (mapM_total f l) as [dy Hdy] end.
    + intros i Hi. apply in_seq in Hi.
      apply thermal_model_dy_defined; lia.
    + rewrite Hdy in H. discriminate.
  - intros [H|[H|H]]; [discriminate| |].
    + apply mapM_None with (a := length (y0 :: ys)).
      * apply in_seq. lia.
      * apply thermal_model_dy_undefined. left.
        apply nth_error_None. lia.
    + apply mapM_None with (a := length (C_TH params)).
      * apply in_seq. fold n. lia.
      * apply thermal_model_dy_undefined. right.
        apply nth_error_None. lia.
Qed.

(** X6.  A ladder of one node conducts from node 0 straight to ambient,
    driven by the node's rise: the derivative is
    [(p_total - COOLING_COEFF * SURFACE_AREA * y0 - y0 / r) / c] with the
    scaled [r] and [c], and the convective term does not depend on the
    ambient temperature. *)
Theorem thermal_model_single_node
    (t y0 r c : R) (params : MOSFETParams.t)
    (v_ds_func i_d_func : R -> R) (t_amb f_sw : R) :
  R_TH params = [r] -> C_TH params = [c] ->
  let t_j := y0 + t_amb in
  let p_total :=
    fst (fst (fst (calculate_power_dissipation
                     (v_ds_func t) (i_d_func t) t_j params f_sw))) in
  thermal_model t [y0] params v_ds_func i_d_func t_amb f_sw
  = Some [(p_total - COOLING_COEFF params * SURFACE_AREA params * y0
           - y0 / (r * (1 + 0.005 * (t_j - 25))))
          / (c * (1 + 0.002 * (t_j - 25)))].
Proof.
  intros Hr Hc t_j p_total. unfold thermal_model.
  cbn [nth_error bind]. unfold non_linear_thermal_properties.
  rewrite Hr, Hc. unfold p_total, t_j.
  destruct (calculate_power_dissipation _ _ _ _ _) as [[[p ?] ?] ?].
  cbn [fst map length seq mapM thermal_model_dy Nat.eqb Nat.add Nat.ltb Nat.leb
       nth_error bind].
  do 2 f_equal. f_equal. f_equal; [|unfold Rdiv; ring]. f_equal. ring.
Qed.

Lemma thermal_model_single_node_witness :
  let params :=
    MOSFETParams.mk 0.19 0.01 25e-9 35e-9 3.2e-6 0.8e-6 [0.05] [1.5e-6]
                    0.004 0.0015 0.0025 150e-12 15 0.0012 175
                    (LIFETIME_PARAMS SPB20N60C3) in
  thermal_model 0 [1] params (fun _ => 0) (fun _ => 0) T_AMB F_SW
  = Some [(fst (fst (fst (calculate_power_dissipation 0 0 (1 + T_AMB) params F_SW)))
           - COOLING_COEFF params * SURFACE_AREA params * 1
           - 1 / (0.05 * (1 + 0.005 * (1 + T_AMB - 25))))
          / (1.5e-6 * (1 + 0.002 * (1 + T_AMB - 25)))].
Proof.
  intros params.
  apply (thermal_model_single_node 0 1 0.05 1.5e-6 params
           (fun _ => 0) (fun _ => 0) T_AMB F_SW); reflexivity.
Defined.

(** ** What the extractor counts, and what it does not *)

(** X7.  A signal of fewer than three samples has no interior extremum and
    yields no cycle, whatever the step between its samples. *)
Theorem rainflow_short_signal (signal : list R) (min_delta_T : R) :
  (length signal < 3)%nat -> rainflow signal min_delta_T = Some ([], 0%nat).
Proof.
  intros H.
  destruct signal as [|a [|b [|c rest]]]; try reflexivity.
  simpl in H. lia.
Qed.

Lemma rainflow_short_signal_witness : rainflow [50; 150] 0.1 = Some ([], 0%nat).
Proof. apply (rainflow_short_signal [50; 150] 0.1). simpl. lia. Defined.

Lemma np_where_mask_and_false_l (m1 m2 : list bool) :
  Forall (fun b => b = false) m1 -> np_where (mask_and m1 m2) = [].
Proof.
  unfold np_where, mask_and. generalize 0%Z as k. revert m2.
  induction m1 as [|b m1 IH]; intros m2 k H; [reflexivity|].
  destruct m2 as [|b2 m2]; [reflexivity|].
  inversion H; subst. cbn [combine map fst snd andb np_where_from]. apply IH. assumption.
Qed.

Lemma np_where_mask_and_false_r (m1 m2 : list bool) :
  Forall (fun b => b = false) m2 -> np_where (mask_and m1 m2) = [].
Proof.
  unfold np_where, mask_and. generalize 0%Z as k. revert m1.
  induction m2 as [|b m2 IH]; intros m1 k H; [destruct m1; reflexivity|].
  destruct m1 as [|b1 m1]; [reflexivity|].
  inversion H; subst. cbn [combine map fst snd np_where_from].
  rewrite andb_false_r. apply IH. assumption.
Qed.

Lemma Forall_removelast {A : Type} (P : A -> Prop) (l : list A) :
  Forall P l -> Forall P (removelast l).
Proof.
  induction l as [|a l IH]; intros H; [constructor|].
  inversion H; subst. destruct l as [|b l]; [constructor|].
  change (removelast (a :: b :: l)) with (a :: removelast (b :: l)).
  constructor; auto.
Qed.

Lemma Forall_tl {A : Type} (P : A -> Prop) (l : list A) :
  Forall P l -> Forall P (tl l).
Proof. intros H. destruct l; [constructor|inversion H; assumption]. Qed.

(** Without an interior extremum only the first sample is pushed. *)
Lemma rainflow_no_extremum (signal : list R) (min_delta_T : R) :
  peaks_of signal = [] -> valleys_of signal = [] ->
  rainflow signal min_delta_T = Some ([], 0%nat).
Proof.
  intros Hp Hv. unfold rainflow, extrema_of. rewrite Hp, Hv.
  cbn [app np_sort insert_sorted].
  destruct (0 <=? Z.of_nat (length signal) - 1)%Z; reflexivity.
Qed.

(** X8.  A signal that rises at every step, or falls at every step, yields
    no cycle, however large the excursion: the half cycle from its first to
    its last sample is not counted. *)
Theorem rainflow_monotone_signal (signal : list R) (min_delta_T : R) :
  Forall (fun d => 0 < d) (np_diff signal)
  \/ Forall (fun d => d < 0) (np_diff signal) ->
  rainflow signal min_delta_T = Some ([], 0%nat).
Proof.
  intros [H|H]; apply rainflow_no_extremum; unfold peaks_of, valleys_of.
  - rewrite np_where_mask_and_false_r; [reflexivity|].
    apply Forall_map. apply Forall_tl in H. apply Forall_impl with (2 := H).
    intros d Hd. apply Rleb_false. exact Hd.
  - rewrite np_where_mask_and_false_l; [reflexivity|].
    apply Forall_map. apply Forall_removelast in H. apply Forall_impl with (2 := H).
    intros d Hd. apply Rltb_false. lra.
  - rewrite np_where_mask_and_false_l; [reflexivity|].
    apply Forall_map. apply Forall_removelast in H. apply Forall_impl with (2 := H).
    intros d Hd. unfold Rgtb. apply Rltb_false. lra.
  - rewrite np_where_mask_and_false_r; [reflexivity|].
    apply Forall_map. apply Forall_tl in H. apply Forall_impl with (2 := H).
    intros d Hd. unfold Rgeb. apply Rleb_false. exact Hd.
Qed.

Lemma rainflow_monotone_signal_witness :
  rainflow [50; 75; 100; 150] 0.1 = Some ([], 0%nat).
Proof.
  apply (rainflow_monotone_signal [50; 75; 100; 150] 0.1).
  left. simpl. repeat constructor; lra.
Defined.

(** X9.  Every cycle [rainflow] returns has an amplitude of at most half
    the peak-to-peak swing of the signal and a mean between the smallest
    and the largest sample. *)
Theorem rainflow_cycles_within_signal (signal : list R) (min_delta_T : R) :
  exists cycles : list Cycle,
    rainflow signal min_delta_T = Some (cycles, length cycles) /\
    Forall (fun c => amplitude c <= peak_to_peak signal / 2 /\
                     np_min signal <= mean c <= np_max signal) cycles.
Proof.
  destruct (rainflow_returns signal min_delta_T) as [cycles [E H]].
  exists cycles. split; [exact E|].
  apply Forall_impl with (2 := H).
  intros c [x1 [x2 [w [H1 [H2 [_ [_ Ec]]]]]]]. subst c. cbn [amplitude mean].
  pose proof (peak_to_peak_bound signal x1 x2 H1 H2).
  unfold np_max, np_min.
  pose proof (np_max_upper signal (hd 0 signal) x1 H1).
  pose proof (np_max_upper signal (hd 0 signal) x2 H2).
  pose proof (np_min_lower signal (hd 0 signal) x1 H1).
  pose proof (np_min_lower signal (hd 0 signal) x2 H2).
  lra.
Qed.

(** *** The order and the number of the cycles *)

Section RainflowCounting.
Variable signal : list R.
Variable extrema : list Z.
Variable min_delta_T : R.

(** The first loop appends full cycles only, one for each entry it takes
    off the stack, and leaves the entry just pushed on top. *)
Lemma reduce_stack_appends (i3 : nat) (below : list nat) :
  forall (cycles : list Cycle) (st : list nat * list Cycle),
  reduce_stack signal extrema min_delta_T i3 below cycles = Some st ->
  exists (rest : list nat) (added : list Cycle),
    fst st = i3 :: rest /\ snd st = cycles ++ added /\
    Forall (fun c => weight c = 1) added /\
    (length rest + length added = length below)%nat.
Proof.
  induction below as [|i2 below IH]; intros cycles st H.
  - inversion H; subst. exists [], []. rewrite app_nil_r. repeat split; try constructor; simpl; lia.
  - destruct below as [|i1 rest].
    + inversion H; subst. exists [i2], []. rewrite app_nil_r.
      repeat split; try constructor; simpl; lia.
    + rewrite reduce_stack_step in H.
      apply bind_Some in H; destruct H as [x1 [_ H]].
      apply bind_Some in H; destruct H as [x2 [_ H]].
      apply bind_Some in H; destruct H as [x3 [_ H]].
      destruct (Rgeb (Rabs (x2 - x1)) min_delta_T
                && Rleb (Rabs (x3 - x2)) (Rabs (x2 - x1))).
      * apply IH in H. destruct H as [rest' [added [Hs [Hc [Hw Hl]]]]].
        eexists rest', (_ :: added). split; [exact Hs|]. split; [|split].
        -- rewrite Hc, <- app_assoc. reflexivity.
        -- constructor; [reflexivity|exact Hw].
        -- cbn [length] in *. lia.
      * inversion H; subst. exists (i2 :: i1 :: rest), []. rewrite app_nil_r.
        repeat split; try constructor; simpl; lia.
Qed.

Lemma push_all_appends (indices : list nat) :
  forall (stack : list nat) (cycles : list Cycle) (st : list nat * list Cycle),
  push_all signal extrema min_delta_T indices stack cycles = Some st ->
  exists added : list Cycle,
    snd st = cycles ++ added /\
    Forall (fun c => weight c = 1) added /\
    (length (fst st) + length added = length indices + length stack)%nat /\
    (indices <> [] -> fst st <> []).
Proof.
  induction indices as [|i indices IH]; intros stack cycles st H.
  - inversion H; subst. exists []. rewrite app_nil_r.
    split; [reflexivity|split; [constructor|split; [simpl; lia|congruence]]].
  - cbn [push_all] in H. apply bind_Some in H; destruct H as [st1 [H1 H]].
    apply reduce_stack_appends in H1.
    destruct H1 as [rest [added1 [Hs1 [Hc1 [Hw1 Hl1]]]]].
    pose proof H as H'. apply IH in H.
    destruct H as [added2 [Hc2 [Hw2 [Hl2 Hn2]]]].
    exists (added1 ++ added2). split; [|split; [|split]].
    + rewrite Hc2, Hc1, app_assoc. reflexivity.
    + apply Forall_app; split; assumption.
    + rewrite length_app. rewrite Hs1 in Hl2. cbn [length] in *. lia.
    + intros _. destruct indices as [|j indices'].
      * inversion H'; subst. rewrite Hs1. discriminate.
      * apply Hn2. discriminate.
Qed.

(** The second loop appends half cycles only, at most one for each entry of
    the stack but the last. *)
Lemma drain_stack_appends (stack : list nat) :
  forall (cycles out : list Cycle),
  drain_stack signal extrema min_delta_T stack cycles = Some out ->
  exists added : list Cycle,
    out = cycles ++ added /\
    Forall (fun c => weight c = 0.5) added /\
    (length added <= length stack - 1)%nat.
Proof.
  induction stack as [|i2 stack IH]; intros cycles out H.
  - inversion H; subst. exists []. rewrite app_nil_r.
    split; [reflexivity|split; [constructor|simpl; lia]].
  - destruct stack as [|i1 rest].
    + inversion H; subst. exists []. rewrite app_nil_r.
      split; [reflexivity|split; [constructor|simpl; lia]].
    + rewrite drain_stack_step in H.
      apply bind_Some in H; destruct H as [x1 [_ H]].
      apply bind_Some in H; destruct H as [x2 [_ H]].
      destruct (Rgeb (Rabs (x2 - x1)) min_delta_T).
      * apply IH in H. destruct H as [added [Ho [Hw Hl]]].
        eexists (_ :: added). split; [|split].
        -- rewrite Ho, <- app_assoc. reflexivity.
        -- constructor; [reflexivity|exact Hw].
        -- cbn [length] in *. lia.
      * apply IH in H. destruct H as [added [Ho [Hw Hl]]].
        exists added. repeat split; try assumption. cbn [length] in *. lia.
Qed.
End RainflowCounting.

(** X10.  In the list [rainflow] returns, the full cycles come first and
    the residual half cycles after them. *)
Theorem rainflow_full_cycles_first (signal : list R) (min_delta_T : R) :
  exists full half : list Cycle,
    rainflow signal min_delta_T
      = Some (full ++ half, (length full + length half)%nat) /\
    Forall (fun c => weight c = 1) full /\
    Forall (fun c => weight c = 0.5) half.
Proof.
  destruct (rainflow_returns signal min_delta_T) as [cycles [E _]].
  pose proof E as E'. unfold rainflow in E'.
  apply bind_Some in E'. destruct E' as [st [Hp E']].
  apply bind_Some in E'. destruct E' as [out [Hd E']].
  inversion E'; subst out. clear E'.
  apply push_all_appends in Hp. destruct Hp as [full [Hc [Hw _]]].
  apply drain_stack_appends in Hd. destruct Hd as [half [Ho [Hh _]]].
  exists full, half. rewrite Hc in Ho. cbn [app] in Ho.
  rewrite E, Ho, length_app. repeat split; assumption.
Qed.

(** The two masks of an interior sample exclude each other, so the peaks
    and the valleys together are at most as many as the second mask is
    long. *)
Lemma np_where_disjoint_masks (f f' g g' : R -> bool) (l l' : list R) :
  (forall d, f d && f' d = false) ->
  forall k k' : Z,
  (length (np_where_from k (mask_and (map f l) (map g l')))
   + length (np_where_from k' (mask_and (map f' l) (map g' l')))
   <= length l')%nat.
Proof.
  intros Hff. revert l'. unfold mask_and.
  induction l as [|d l IH]; intros l' k k'; [simpl; lia|].
  destruct l' as [|d' l']; [simpl; lia|].
  cbn [map combine fst snd np_where_from length].
  specialize (IH l' (k + 1)%Z (k' + 1)%Z). specialize (Hff d).
  destruct (f d), (f' d); try discriminate;
    destruct (g d'), (g' d'); cbn [andb length]; lia.
Qed.

Lemma extrema_of_at_most_samples (signal : list R) :
  (length (extrema_of signal) - 2 <= length signal - 2)%nat.
Proof.
  unfold extrema_of. rewrite np_sort_length, !length_app. cbn [length].
  unfold peaks_of, valleys_of, np_where. rewrite !length_map.
  pose proof (np_where_disjoint_masks
                (fun d => Rgtb d 0) (fun d => Rltb d 0)
                (fun d => Rleb d 0) (fun d => Rgeb d 0)
                (removelast (np_diff signal)) (tl (np_diff signal))) as H.
  assert (Lt : length (tl (np_diff signal)) = (length signal - 2)%nat).
  { pose proof (np_diff_length signal) as D.
    destruct (np_diff signal); cbn [tl length] in *; lia. }
  rewrite Lt in H.
  specialize (H ltac:(intros d; unfold Rgtb, Rltb;
                      destruct (Rlt_dec 0 d), (Rlt_dec d 0); try reflexivity; lra)
                0%Z 0%Z).
  lia.
Qed.

(** X11.  The number of cycles [rainflow] returns is at most the number of
    samples less two. *)
Theorem rainflow_cycle_count_bound (signal : list R) (min_delta_T : R) :
  exists cycles : list Cycle,
    rainflow signal min_delta_T = Some (cycles, length cycles) /\
    (length cycles <= length signal - 2)%nat.
Proof.
  destruct (rainflow_returns signal min_delta_T) as [cycles [E _]].
  exists cycles. split; [exact E|].
  unfold rainflow in E.
  apply bind_Some in E. destruct E as [st [Hp E]].
  apply bind_Some in E. destruct E as [out [Hd E]].
  inversion E; subst out. clear E.
  apply push_all_appends in Hp. destruct Hp as [full [Hc [_ [Hl Hn]]]].
  apply drain_stack_appends in Hd. destruct Hd as [half [Ho [_ Hh]]].
  rewrite Hc in Ho. cbn [app] in Ho. rewrite Ho, length_app.
  rewrite length_seq in Hl. cbn [length] in Hl.
  pose proof (extrema_of_length signal) as L2.
  pose proof (extrema_of_at_most_samples signal) as L.
  assert (fst st <> []).
  { apply Hn. destruct (length (extrema_of signal) - 1)%nat eqn:En; [lia|].
    discriminate. }
  destruct (fst st) as [|s0 stack]; [congruence|]. cbn [length] in *. lia.
Qed.

(** *** Moving the signal up or down *)




Section RainflowShift.
Variable offset : R.
Variable signal : list R.
Variable extrema : list Z.
Variable min_delta_T : R.



End RainflowShift.


(** ** Cycles to failure and the mean temperature *)

(** X13.  For a non-negative activation energy and mean temperatures above
    absolute zero, a hotter cycle of the same amplitude never has more
    cycles to failure. *)
Theorem calculate_cycles_to_failure_hotter
    (delta_T T1 T2 : R) (params : LifetimeParams.t) :
  0 <= LifetimeParams.Ea params ->
  -273.15 < T1 -> T1 <= T2 ->
  calculate_cycles_to_failure delta_T T2 params
  <= calculate_cycles_to_failure delta_T T1 params.
Proof.
  intros HEa H1 H12. rewrite !calculate_cycles_to_failure_clamp.
  unfold unclamped_cycles_to_failure.
  set (kb := boltzmann_constant / 1.60218e-19).
  assert (Hkb : 0 < kb) by (unfold kb, boltzmann_constant; lra).
  set (p := Rpower delta_T _). assert (Hp : 0 < p) by apply Rpower_pos.
  set (Ea := LifetimeParams.Ea params) in *. set (A := LifetimeParams.A params).
  assert (Hk1 : 0 < kb * (T1 + 273.15)) by (apply Rmult_lt_0_compat; lra).
  assert (Hk12 : kb * (T1 + 273.15) <= kb * (T2 + 273.15))
    by (apply Rmult_le_compat_l; lra).
  assert (HE : exp (Ea / (kb * (T2 + 273.15))) <= exp (Ea / (kb * (T1 + 273.15)))).
  { apply exp_le. unfold Rdiv. apply Rmult_le_compat_l; [exact HEa|].
    apply Rinv_le_contravar; assumption. }
  pose proof (exp_pos (Ea / (kb * (T2 + 273.15)))) as HE2.
  destruct (Rle_lt_dec 0 A) as [HA|HA].
  - apply Rmax_lub; [|apply Rmax_r].
    eapply Rle_trans; [|apply Rmax_l].
    apply Rmult_le_compat_l; [apply Rmult_le_pos; lra|exact HE].
  - assert (0 <= - A * p) by (apply Rmult_le_pos; lra).
    assert (0 <= - A * p * exp (Ea / (kb * (T2 + 273.15))))
      by (apply Rmult_le_pos; lra).
    rewrite (Rmax_right (A * p * exp (Ea / (kb * (T2 + 273.15))))) by lra.
    apply Rmax_r.
Qed.

Lemma calculate_cycles_to_failure_hotter_witness :
  calculate_cycles_to_failure 10 150 (LIFETIME_PARAMS SPB20N60C3)
  <= calculate_cycles_to_failure 10 50 (LIFETIME_PARAMS SPB20N60C3).
Proof.
  apply (calculate_cycles_to_failure_hotter 10 50 150 (LIFETIME_PARAMS SPB20N60C3));
    simpl; lra.
Defined.

(** ** Miner's rule *)

Lemma miners_loop_closed_form (cycles : list Cycle) (params : LifetimeParams.t) :
  forall (damage : R) (cycles_to_failure : list (R * R)),
  miners_loop cycles params damage cycles_to_failure
  = (damage + miner_sum cycles params,
     cycles_to_failure
     ++ map (fun c => (amplitude c,
                       calculate_cycles_to_failure (amplitude c) (mean c) params))
            cycles).
Proof.
  induction cycles as [|c cycles IH]; intros damage ctf.
  - cbn [miners_loop miner_sum fold_right map]. rewrite app_nil_r.
    f_equal. ring.
  - cbn [miners_loop]. rewrite IH. cbn [map]. rewrite <- app_assoc.
    f_equal. unfold miner_sum. cbn [fold_right]. ring.
Qed.

Lemma miners_rule_degradation_cons
    (c : Cycle) (cycles : list Cycle) (params : LifetimeParams.t) :
  miners_rule_degradation (c :: cycles) params
  = (Rmax (miner_sum (c :: cycles) params) 1e-10,
     map (fun c => (amplitude c,
                    calculate_cycles_to_failure (amplitude c) (mean c) params))
         (c :: cycles)).
Proof.
  unfold miners_rule_degradation. cbn [length Nat.eqb].
  rewrite miners_loop_closed_form. cbn [app]. rewrite Rplus_0_l. reflexivity.
Qed.

(** X14.  [miners_rule_degradation] returns the Miner sum of
    [weight / N_f] over the cycles, floored at [1e-10] unless the list is
    empty, where the damage is zero, and a list that pairs, in the order of
    the cycles, each amplitude with its cycles to failure. *)
Theorem miners_rule_degradation_closed_form
    (cycles : list Cycle) (params : LifetimeParams.t) :
  miners_rule_degradation cycles params
  = (match cycles with
     | [] => 0
     | _ :: _ => Rmax (miner_sum cycles params) 1e-10
     end,
     map (fun c => (amplitude c,
                    calculate_cycles_to_failure (amplitude c) (mean c) params))
         cycles).
Proof.
  destruct cycles as [|c cycles].
  - reflexivity.
  - apply miners_rule_degradation_cons.
Qed.

Lemma miner_sum_app (cycles1 cycles2 : list Cycle) (params : LifetimeParams.t) :
  miner_sum (cycles1 ++ cycles2) params
  = miner_sum cycles1 params + miner_sum cycles2 params.
Proof.
  unfold miner_sum. induction cycles1 as [|c cycles1 IH]; cbn [app fold_right].
  - ring.
  - rewrite IH. ring.
Qed.

Lemma miner_term_bounds (c : Cycle) (params : LifetimeParams.t) :
  0 <= weight c ->
  0 <= weight c / calculate_cycles_to_failure (amplitude c) (mean c) params
    <= weight c.
Proof.
  intros Hw.
  pose proof (calculate_cycles_to_failure_ge_1 (amplitude c) (mean c) params) as HN.
  set (N := calculate_cycles_to_failure _ _ _) in *.
  assert (0 < / N <= 1).
  { split; [apply Rinv_0_lt_compat; lra|].
    rewrite <- Rinv_1. apply Rinv_le_contravar; lra. }
  unfold Rdiv. split; [apply Rmult_le_pos; lra|].
  rewrite <- (Rmult_1_r (weight c)) at 2. apply Rmult_le_compat_l; lra.
Qed.

Lemma miner_sum_bounds (cycles : list Cycle) (params : LifetimeParams.t) :
  Forall (fun c => 0 <= weight c) cycles ->
  0 <= miner_sum cycles params <= total_weight cycles.
Proof.
  unfold miner_sum, total_weight.
  induction cycles as [|c cycles IH]; intros H; cbn [fold_right]; [lra|].
  inversion H; subst.
  pose proof (miner_term_bounds c params ltac:(assumption)).
  specialize (IH ltac:(assumption)). lra.
Qed.

(** X15.  With non-negative weights the damage never exceeds the sum of the
    weights, the floor of [1e-10] apart: no cycle can cost more than its
    weight, since its cycles to failure are at least one. *)
Theorem miners_rule_degradation_at_most_weight
    (cycles : list Cycle) (params : LifetimeParams.t) :
  Forall (fun c => 0 <= weight c) cycles ->
  fst (miners_rule_degradation cycles params)
  <= Rmax (total_weight cycles) 1e-10.
Proof.
  intros H. destruct cycles as [|c cycles].
  - cbn. eapply Rle_trans; [|apply Rmax_r]. lra.
  - rewrite miners_rule_degradation_cons. cbn [fst].
    pose proof (miner_sum_bounds (c :: cycles) params H).
    apply Rmax_lub; [|apply Rmax_r].
    eapply Rle_trans; [|apply Rmax_l]. lra.
Qed.

Lemma miners_rule_degradation_at_most_weight_witness :
  fst (miners_rule_degradation [mkCycle 10 60 1; mkCycle 5 55 0.5]
                               (LIFETIME_PARAMS SPB20N60C3))
  <= Rmax (total_weight [mkCycle 10 60 1; mkCycle 5 55 0.5]) 1e-10.
Proof.
  apply (miners_rule_degradation_at_most_weight
           [mkCycle 10 60 1; mkCycle 5 55 0.5] (LIFETIME_PARAMS SPB20N60C3)).
  repeat constructor; simpl; lra.
Defined.

(** X16.  Appending a cycle of non-negative weight never lowers the
    damage. *)
Theorem miners_rule_degradation_append
    (cycles : list Cycle) (c : Cycle) (params : LifetimeParams.t) :
  0 <= weight c ->
  fst (miners_rule_degradation cycles params)
  <= fst (miners_rule_degradation (cycles ++ [c]) params).
Proof.
  intros Hw. destruct cycles as [|c0 cycles].
  - cbn [app]. rewrite miners_rule_degradation_cons. cbn.
    eapply Rle_trans; [|apply Rmax_r]. lra.
  - change ((c0 :: cycles) ++ [c]) with (c0 :: (cycles ++ [c])).
    rewrite !miners_rule_degradation_cons. cbn [fst].
    change (c0 :: cycles ++ [c]) with ((c0 :: cycles) ++ [c]).
    rewrite miner_sum_app.
    pose proof (miner_term_bounds c params Hw) as Hc.
    assert (E : miner_sum [c] params
                = weight c / calculate_cycles_to_failure (amplitude c) (mean c) params)
      by (unfold miner_sum; cbn [fold_right]; ring).
    rewrite E.
    apply Rmax_lub; [|apply Rmax_r].
    eapply Rle_trans; [|apply Rmax_l]. lra.
Qed.

Lemma miners_rule_degradation_append_witness :
  fst (miners_rule_degradation [mkCycle 10 60 1] (LIFETIME_PARAMS SPB20N60C3))
  <= fst (miners_rule_degradation ([mkCycle 10 60 1] ++ [mkCycle 5 55 0.5])
                                  (LIFETIME_PARAMS SPB20N60C3)).
Proof.
  apply (miners_rule_degradation_append [mkCycle 10 60 1] (mkCycle 5 55 0.5)
           (LIFETIME_PARAMS SPB20N60C3)).
  simpl. lra.
Defined.

Lemma fold_left_Rplus (l : list R) :
  forall a : R, fold_left Rplus l a = a + fold_right Rplus 0 l.
Proof.
  induction l as [|x l IH]; intros a; cbn [fold_left fold_right]; [ring|].
  rewrite IH. ring.
Qed.

(** X17.  The sum of the cycles to failure that [main-script.py] prints
    and exports is at least the number of cycles, and zero when there is
    none. *)
Theorem total_cycles_to_failure_at_least_count
    (cycles : list Cycle) (params : LifetimeParams.t) :
  INR (length cycles)
  <= total_cycles_to_failure (snd (miners_rule_degradation cycles params)) /\
  total_cycles_to_failure (snd (miners_rule_degradation [] params)) = 0.
Proof.
  split; [|reflexivity].
  destruct cycles as [|c cycles]; [cbn; lra|].
  rewrite miners_rule_degradation_cons. cbn [snd].
  unfold total_cycles_to_failure. rewrite fold_left_Rplus, Rplus_0_l.
  generalize (c :: cycles). clear c cycles. intros cycles.
  induction cycles as [|c cycles IH]; [cbn; lra|].
  cbn [map snd fold_right length]. rewrite S_INR.
  pose proof (calculate_cycles_to_failure_ge_1 (amplitude c) (mean c) params).
  lra.
Qed.

(** ** The lifetime estimate *)

(** X18.  For positive damages and a positive [cycles_per_year], more
    damage never gives a longer lifetime. *)
Theorem estimate_lifetime_years_antitone (d1 d2 : R) (cycles_per_year : Z) :
  0 < d1 -> d1 <= d2 -> (0 < cycles_per_year)%Z ->
  exists y1 y2 : R,
    estimate_lifetime_years d1 cycles_per_year = Finite y1 /\
    estimate_lifetime_years d2 cycles_per_year = Finite y2 /\
    y2 <= y1.
Proof.
  intros H1 H12 Hc. unfold estimate_lifetime_years.
  rewrite (proj2 (Rleb_false d1 0)) by exact H1.
  rewrite (proj2 (Rleb_false d2 0)) by lra.
  do 2 eexists. split; [reflexivity|split; [reflexivity|]].
  apply IZR_lt in Hc.
  apply Rle_min_compat_r.
  unfold Rdiv. rewrite !Rmult_1_l.
  apply Rmult_le_compat_r; [left; apply Rinv_0_lt_compat; exact Hc|].
  apply Rinv_le_contravar; assumption.
Qed.

Lemma estimate_lifetime_years_antitone_witness :
  exists y1 y2 : R,
    estimate_lifetime_years 1e-6 default_cycles_per_year = Finite y1 /\
    estimate_lifetime_years 1e-3 default_cycles_per_year = Finite y2 /\
    y2 <= y1.
Proof.
  apply (estimate_lifetime_years_antitone 1e-6 1e-3 default_cycles_per_year);
    [lra|lra|reflexivity].
Defined.



(** X20.  [estimate_lifetime] returns on every trajectory, with one entry of
    the per-cycle list for each counted cycle, and in one of two shapes:
    no cycle, a damage of zero and an unbounded lifetime; or at least one
    cycle, a damage of at least [1e-10] and a finite lifetime, positive and
    at most 100 years.  The damage is never strictly between 0 and
    [1e-10]. *)
Theorem estimate_lifetime_shapes (t_j : list R) (lifetime_params : LifetimeParams.t) :
  exists (degradation : R) (estimated_years : lifetime) (total_cycles : nat)
         (cycles_to_failure : list (R * R)),
    estimate_lifetime t_j lifetime_params
      = Some (degradation, estimated_years, total_cycles, cycles_to_failure) /\
    length cycles_to_failure = total_cycles /\
    ((total_cycles = 0%nat /\ degradation = 0 /\ estimated_years = Infinite)
     \/ ((0 < total_cycles)%nat /\ 1e-10 <= degradation /\
         exists years : R, estimated_years = Finite years /\ 0 < years <= 100)).
Proof.
  destruct (rainflow_returns t_j 0.1) as [cycles [E _]].
  unfold estimate_lifetime. rewrite E. cbn [bind].
  destruct cycles as [|c cycles].
  - cbn [miners_rule_degradation length Nat.eqb].
    rewrite estimate_lifetime_years_unbounded by lra.
    do 4 eexists. split; [reflexivity|]. split; [reflexivity|].
    left. repeat split.
  - pose proof (miners_rule_degradation_floor (c :: cycles) lifetime_params
                  ltac:(discriminate)) as Hf.
    rewrite miners_rule_degradation_cons in *. cbn [fst] in Hf.
    destruct (estimate_lifetime_years_finite
                (Rmax (miner_sum (c :: cycles) lifetime_params) 1e-10)
                default_cycles_per_year) as [years [Ey Hy]]; [lra|reflexivity|].
    rewrite Ey.
    do 4 eexists. split; [reflexivity|]. split; [rewrite length_map; reflexivity|].
    right. split; [cbn [length]; lia|]. split; [exact Hf|].
    exists years. split; [reflexivity|exact Hy].
Qed.

(** A signal whose swing stays below the threshold yields no cycle. *)
Lemma rainflow_quiet (signal : list R) (min_delta_T : R) :
  peak_to_peak signal < min_delta_T ->
  rainflow signal min_delta_T = Some ([], 0%nat).
Proof.
  intros Hs.
  destruct (rainflow_returns signal min_delta_T) as [cycles [E H]].
  destruct cycles as [|c cycles]; [exact E|exfalso].
  apply Forall_inv in H. destruct H as [x1 [x2 [w [H1 [H2 [Hd _]]]]]].
  pose proof (peak_to_peak_bound signal x1 x2 H1 H2). lra.
Qed.

(** X21.  A junction temperature that stays within a band narrower than
    0.1 degrees is given zero damage and an unbounded lifetime. *)
Theorem estimate_lifetime_quiet (t_j : list R) (lifetime_params : LifetimeParams.t) :
  peak_to_peak t_j < 0.1 ->
  estimate_lifetime t_j lifetime_params = Some (0, Infinite, 0%nat, []).
Proof.
  intros H. unfold estimate_lifetime.
  rewrite (rainflow_quiet t_j 0.1 H). cbn [bind].
  cbn [miners_rule_degradation length Nat.eqb].
  rewrite estimate_lifetime_years_unbounded by lra. reflexivity.
Qed.

Lemma estimate_lifetime_quiet_witness :
  estimate_lifetime [50; 50.05; 50; 50.02] (LIFETIME_PARAMS SPB20N60C3)
  = Some (0, Infinite, 0%nat, []).
Proof.
  apply (estimate_lifetime_quiet [50; 50.05; 50; 50.02] (LIFETIME_PARAMS SPB20N60C3)).
  unfold peak_to_peak, np_max, np_min. Reval. lra.
Defined.

(** ** The time array and the trace of a run *)

Lemma insert_unique_In (x a : R) (l : list R) :
  In x (insert_unique a l) <-> x = a \/ In x l.
Proof.
  induction l as [|y l IH]; cbn [insert_unique].
  - simpl. intuition.
  - destruct (Rltb a y) eqn:E1; [simpl; intuition|].
    destruct (Rltb y a) eqn:E2.
    + simpl. rewrite IH. intuition.
    + apply Rltb_false in E1. apply Rltb_false in E2.
      assert (a = y) by lra. subst. simpl. intuition.
Qed.

Lemma np_unique_In (x : R) (l : list R) : In x (np_unique l) <-> In x l.
Proof.
  unfold np_unique. induction l as [|a l IH]; cbn [fold_right]; [reflexivity|].
  rewrite insert_unique_In, IH. simpl. intuition.
Qed.

Lemma insert_unique_sorted (a : R) (l : list R) :
  StronglySorted Rlt l -> StronglySorted Rlt (insert_unique a l).
Proof.
  induction l as [|y l IH]; intros H; cbn [insert_unique].
  - repeat constructor.
  - apply StronglySorted_inv in H. destruct H as [Hl Hy].
    destruct (Rltb a y) eqn:E1; [|destruct (Rltb y a) eqn:E2].
    + apply Rltb_true in E1. constructor; [constructor; assumption|].
      constructor; [exact E1|].
      apply Forall_impl with (2 := Hy). intros z Hz. lra.
    + apply Rltb_true in E2. constructor; [apply IH; exact Hl|].
      apply Forall_forall. intros z Hz. apply insert_unique_In in Hz.
      destruct Hz as [Hz|Hz]; [subst; exact E2|].
      rewrite Forall_forall in Hy. apply Hy. exact Hz.
    + constructor; assumption.
Qed.

Lemma np_unique_sorted (l : list R) : StronglySorted Rlt (np_unique l).
Proof.
  unfold np_unique. induction l as [|a l IH]; cbn [fold_right]; [constructor|].
  apply insert_unique_sorted. exact IH.
Qed.

(** Sorting what is already in strictly increasing order changes nothing. *)
Lemma sort_float_sorted (l : list R) : StronglySorted Rlt l -> sort_float l = l.
Proof.
  unfold sort_float. induction l as [|a l IH]; intros H; [reflexivity|].
  apply StronglySorted_inv in H. destruct H as [Hl Ha].
  cbn [fold_right]. rewrite (IH Hl).
  destruct l as [|y l]; [reflexivity|]. cbn [insert_float].
  apply Forall_inv in Ha. rewrite (proj2 (Rleb_true a y)) by lra. reflexivity.
Qed.

(** X22.  The time array of a run holds exactly the sample times of the two
    waveforms, each once, in strictly increasing order. *)
Theorem time_array_union (vrt irt : list (R * R)) :
  StronglySorted Rlt (time_array vrt irt) /\
  forall x : R,
    In x (time_array vrt irt) <-> In x (map fst vrt) \/ In x (map fst irt).
Proof.
  unfold time_array. rewrite sort_float_sorted by apply np_unique_sorted.
  split; [apply np_unique_sorted|].
  intros x. rewrite np_unique_In, map_app, in_app_iff. reflexivity.
Qed.

Lemma power_at_defined (v_ds i_d t_j : list R) (params : MOSFETParams.t)
    (f_sw : R) (i : nat) :
  (i < length v_ds)%nat -> (i < length i_d)%nat -> (i < length t_j)%nat ->
  power_at v_ds i_d t_j params f_sw i
  = Some (calculate_power_dissipation (nth i v_ds 0) (nth i i_d 0) (nth i t_j 0)
                                      params f_sw).
Proof.
  intros Hv Hi Ht. unfold power_at.
  rewrite (nth_error_nth' v_ds 0 Hv), (nth_error_nth' i_d 0 Hi),
          (nth_error_nth' t_j 0 Ht).
  reflexivity.
Qed.

Lemma mapM_Some_map {A B : Type} (f : A -> option B) (g : A -> B) (l : list A) :
  (forall a, In a l -> f a = Some (g a)) -> mapM f l = Some (map g l).
Proof.
  induction l as [|a l IH]; intros H; [reflexivity|].
  cbn [mapM map]. rewrite (H a (or_introl eq_refl)). cbn [bind].
  rewrite IH by (intros; apply H; right; assumption). reflexivity.
Qed.



(** X24.  Filling the power arrays fails with an [IndexError] exactly when
    the first row of [solution.y] is shorter than the time array. *)
Theorem power_trace_index_error
    (t : list R) (v_func i_func : R -> R) (row : list R)
    (params : MOSFETParams.t) (t_amb f_sw : R) :
  power_trace t v_func i_func row params t_amb f_sw = inl IndexError
  <-> (length row < length t)%nat.
Proof.
  split.
  - intros H. destruct (le_lt_dec (length t) (length row)) as [L|L]; [|exact L].
    exfalso. unfold power_trace in H.
    rewrite (mapM_Some_map _
               (fun i => calculate_power_dissipation
                           (nth i (map v_func t) 0) (nth i (map i_func t) 0)
                           (nth i (map (fun x => x + t_amb) row) 0) params f_sw))
      in H; [discriminate|].
    intros i Hi. apply in_seq in Hi.
    apply power_at_defined; rewrite length_map; lia.
  - intros L. unfold power_trace.
    rewrite (mapM_None _ _ (length row)); [reflexivity| |].
    + apply in_seq. lia.
    + unfold power_at.
      destruct (nth_error (map v_func t) (length row)); [|reflexivity].
      destruct (nth_error (map i_func t) (length row)); [|reflexivity].
      cbn [bind].
      rewrite (proj2 (nth_error_None (map (fun x => x + t_amb) row) (length row)))
        by (rewrite length_map; lia).
      reflexivity.
Qed.

(** ** A whole run *)

Lemma time_array_unique (vrt irt : list (R * R)) :
  time_array vrt irt = np_unique (map fst (vrt ++ irt)).
Proof. unfold time_array. apply sort_float_sorted. apply np_unique_sorted. Qed.

Lemma time_array_nonempty (vrt irt : list (R * R)) :
  vrt <> [] -> time_array vrt irt <> [].
Proof.
  intros Hv. destruct vrt as [|s vrt]; [congruence|].
  intros E. assert (H : In (fst s) (time_array (s :: vrt) irt)).
  { rewrite time_array_unique. apply np_unique_In. left. reflexivity. }
  rewrite E in H. destruct H.
Qed.

Lemma np_getitem_first_last {A : Type} (a : list A) :
  a <> [] ->
  exists first last : A, np_getitem a 0 = Some first /\ np_getitem a (-1) = Some last.
Proof.
  intros Ha. destruct a as [|x a]; [congruence|].
  exists x. unfold np_getitem.
  change (0 <? 0)%Z with false. change (-1 <? 0)%Z with true. cbn match.
  destruct (Z.leb_spec (- -1) (Z.of_nat (length (x :: a)))) as [L|L];
    [|cbn [length] in L; lia].
  destruct (nth_error_defined (x :: a)
              (Z.to_nat (Z.of_nat (length (x :: a)) + -1))) as [y Hy];
    [cbn [length]; lia|].
  exists y. split; [reflexivity|exact Hy].
Qed.

Lemma power_trace_lengths
    (t : list R) (v_func i_func : R -> R) (row : list R)
    (params : MOSFETParams.t) (t_amb f_sw : R) (tr : Trace) :
  power_trace t v_func i_func row params t_amb f_sw = inr tr ->
  trace_t tr = t /\
  trace_t_j tr = map (fun x => x + t_amb) row /\
  trace_v_ds tr = map v_func t /\ trace_i_d tr = map i_func t /\
  length (trace_p_total tr) = length t /\ length (trace_p_cond tr) = length t /\
  length (trace_p_sw tr) = length t /\ length (trace_p_cap tr) = length t /\
  (length t <= length row)%nat.
Proof.
  unfold power_trace. intros H.
  destruct (mapM _ _) as [p|] eqn:E; [|discriminate].
  inversion H; subst tr. clear H.
  cbn [trace_t trace_t_j trace_v_ds trace_i_d
       trace_p_total trace_p_cond trace_p_sw trace_p_cap].
  pose proof (mapM_length _ _ _ E) as L. rewrite length_seq in L.
  rewrite !length_map, L. repeat (split; [reflexivity|]).
  destruct (le_lt_dec (length t) (length row)) as [Hl|Hl]; [exact Hl|exfalso].
  rewrite (mapM_None _ _ (length row)) in E; [discriminate| |].
  - apply in_seq. lia.
  - unfold power_at.
    destruct (nth_error (map v_func t) (length row)); [|reflexivity].
    destruct (nth_error (map i_func t) (length row)); [|reflexivity].
    cbn [bind].
    rewrite (proj2 (nth_error_None (map (fun x => x + t_amb) row) (length row)))
      by (rewrite length_map; lia).
    reflexivity.
Qed.

Section Runs.
Variable interp1d : list R -> list R -> R -> R.
Variable solve_ivp :
  (R -> list R -> option (list R)) -> R * R -> list R -> list R ->
  option (list (list R)).

(** X25.  A run fails with the [ValueError] of the unpacking exactly when
    one of the two waveforms is empty, whatever the two library calls
    return. *)
Theorem run_thermal_simulation_empty_waveform
    (params : MOSFETParams.t) (vrt irt : list (R * R)) (t_amb f_sw : R) :
  run_thermal_simulation interp1d solve_ivp params vrt irt t_amb f_sw
    = inl (Raised ValueError)
  <-> vrt = [] \/ irt = [].
Proof.
  unfold run_thermal_simulation, interpolate_waveforms.
  destruct vrt as [|v vrt]; [split; [left|]; reflexivity|].
  destruct irt as [|c irt]; [split; [right|]; reflexivity|].
  cbn [create_interpolation_function].
  split; [|intros [H|H]; discriminate].
  intros H. exfalso.
  destruct (np_getitem_first_last (time_array (v :: vrt) (c :: irt)))
    as [first [last [E0 E1]]]; [apply time_array_nonempty; discriminate|].
  rewrite E0, E1 in H.
  destruct (solve_ivp _ _ _ _) as [sol|]; [|discriminate].
  destruct (nth_error sol 0) as [row|]; [|discriminate].
  unfold power_trace in H. destruct (mapM _ _); discriminate.
Qed.

(** X26.  The arrays of a run that returns are aligned: the time array is
    the union of the sample times, the voltage and the current are the two
    interpolants on it, the four power arrays are as long as it is, and the
    junction temperature has an entry for each of its times. *)
Theorem run_thermal_simulation_aligned
    (params : MOSFETParams.t) (vrt irt : list (R * R)) (t_amb f_sw : R)
    (tr : Trace) :
  run_thermal_simulation interp1d solve_ivp params vrt irt t_amb f_sw = inr tr ->
  trace_t tr = time_array vrt irt /\
  trace_v_ds tr = map (interp1d (map fst vrt) (map snd vrt)) (trace_t tr) /\
  trace_i_d tr = map (interp1d (map fst irt) (map snd irt)) (trace_t tr) /\
  length (trace_p_total tr) = length (trace_t tr) /\
  length (trace_p_cond tr) = length (trace_t tr) /\
  length (trace_p_sw tr) = length (trace_t tr) /\
  length (trace_p_cap tr) = length (trace_t tr) /\
  (length (trace_t tr) <= length (trace_t_j tr))%nat.
Proof.
  unfold run_thermal_simulation, interpolate_waveforms. intros H.
  destruct vrt as [|v vrt]; [discriminate|].
  destruct irt as [|c irt]; [discriminate|].
  cbn [create_interpolation_function] in H.
  destruct (np_getitem _ 0) as [first|]; [|discriminate].
  destruct (np_getitem _ (-1)) as [last|]; [|discriminate].
  destruct (solve_ivp _ _ _ _) as [sol|]; [|discriminate].
  destruct (nth_error sol 0) as [row|]; [|discriminate].
  apply power_trace_lengths in H.
  destruct H as [Ht [Hj [Hv [Hi [H1 [H2 [H3 [H4 Hl]]]]]]]].
  rewrite Ht, Hj, Hv, Hi, H1, H2, H3, H4, length_map.
  repeat split; try reflexivity. exact Hl.
Qed.
End Runs.

(** A run with an interpolant that is zero everywhere and a solver that
    returns a state of one component at rest. *)
Lemma run_thermal_simulation_aligned_witness :
  exists tr : Trace,
    run_thermal_simulation (fun _ _ _ => 0) (fun _ _ _ t => Some [map (fun _ => 0) t])
      SPB20N60C3 [(0, 0); (1, 1)] [(0, 0); (2, 1)] T_AMB F_SW = inr tr /\
    trace_t tr = time_array [(0, 0); (1, 1)] [(0, 0); (2, 1)] /\
    trace_v_ds tr = map (fun _ => 0) (trace_t tr) /\
    trace_i_d tr = map (fun _ => 0) (trace_t tr) /\
    length (trace_p_total tr) = length (trace_t tr) /\
    length (trace_p_cond tr) = length (trace_t tr) /\
    length (trace_p_sw tr) = length (trace_t tr) /\
    length (trace_p_cap tr) = length (trace_t tr) /\
    (length (trace_t tr) <= length (trace_t_j tr))%nat.
Proof.
  assert (T : time_array [(0, 0); (1, 1)] [(0, 0); (2, 1)] = [0; 1; 2]).
  { unfold time_array, np_unique, sort_float. Reval. reflexivity. }
  assert (H : exists tr : Trace,
            run_thermal_simulation (fun _ _ _ => 0)
              (fun _ _ _ t => Some [map (fun _ => 0) t])
              SPB20N60C3 [(0, 0); (1, 1)] [(0, 0); (2, 1)] T_AMB F_SW = inr tr).
  { unfold run_thermal_simulation, interpolate_waveforms. rewrite T.
    cbn [create_interpolation_function np_getitem Z.ltb Z.compare Z.leb Z.opp
         Z.of_nat length nth_error Z.to_nat Z.add Pos.of_succ_nat Pos.succ
         Z.pos_sub Pos.pred_double Pos.to_nat Pos.iter_op Nat.add Init.Nat.add map].
    unfold power_trace.
    cbn [map length seq mapM power_at nth_error bind].
    eexists. reflexivity. }
  destruct H as [tr H]. exists tr. split; [exact H|].
  apply (run_thermal_simulation_aligned (fun _ _ _ => 0)
           (fun _ _ _ t => Some [map (fun _ => 0) t])
           SPB20N60C3 [(0, 0); (1, 1)] [(0, 0); (2, 1)] T_AMB F_SW tr H).
Defined.

(** ** The loop over the device table *)

Lemma estimate_lifetime_returns (t_j : list R) (lifetime_params : LifetimeParams.t) :
  exists e, estimate_lifetime t_j lifetime_params = Some e.
Proof.
  destruct (rainflow_returns t_j 0.1) as [cycles [E _]].
  unfold estimate_lifetime. rewrite E. cbn [bind].
  destruct (miners_rule_degradation cycles lifetime_params) as [d ctf].
  eexists. reflexivity.
Qed.

Section DeviceLoop.
Variable interp1d : list R -> list R -> R -> R.
Variable solve_ivp :
  (R -> list R -> option (list R)) -> R * R -> list R -> list R ->
  option (list (list R)).

Lemma run_simulation_entries
    (devices : list (String.string * MOSFETParams.t)) :
  forall (acc : list (String.string * (Trace * (R * lifetime * nat * list (R * R)))))
         (name : String.string) (tr : Trace) (e : R * lifetime * nat * list (R * R)),
  In (name, (tr, e)) (fold_left (run_simulation_step interp1d solve_ivp) devices acc)
  <-> In (name, (tr, e)) acc
      \/ exists params : MOSFETParams.t,
           In (name, params) devices /\
           run_thermal_simulation interp1d solve_ivp params VRT IRT T_AMB F_SW
             = inr tr /\
           estimate_lifetime (trace_t_j tr) (LIFETIME_PARAMS params) = Some e.
Proof.
  induction devices as [|d devices IH]; intros acc name tr e; cbn [fold_left].
  - split; [intros H; left; exact H|].
    intros [H|[params [[] _]]]. exact H.
  - rewrite IH. unfold run_simulation_step.
    destruct d as [dname dparams]. cbn [fst snd].
    destruct (run_thermal_simulation interp1d solve_ivp dparams VRT IRT T_AMB F_SW)
      as [err|dtr] eqn:Er.
    + split.
      * intros [H|[params [Hin H]]]; [left; exact H|].
        right. exists params. split; [right; exact Hin|exact H].
      * intros [H|[params [[Hin|Hin] [H1 H2]]]]; [left; exact H| |].
        -- inversion Hin; subst. rewrite Er in H1. discriminate.
        -- right. exists params. repeat split; assumption.
    + destruct (estimate_lifetime_returns (trace_t_j dtr) (LIFETIME_PARAMS dparams))
        as [de Ee].
      rewrite Ee. split.
      * intros [H|[params [Hin H]]].
        -- apply in_app_or in H. destruct H as [H|[H|[]]]; [left; exact H|].
           inversion H; subst. right. exists dparams.
           split; [left; reflexivity|split; [exact Er|exact Ee]].
        -- right. exists params. split; [right; exact Hin|exact H].
      * intros [H|[params [[Hin|Hin] [H1 H2]]]].
        -- left. apply in_or_app. left. exact H.
        -- inversion Hin; subst. rewrite Er in H1. inversion H1; subst.
           rewrite Ee in H2. inversion H2; subst.
           left. apply in_or_app. right. left. reflexivity.
        -- right. exists params. repeat split; assumption.
Qed.

(** X27.  For a table of distinct device names, the results of
    [run_simulation] hold an entry for a name exactly when the thermal
    simulation of that device returns, the entry being its trace and the
    tuple of [estimate_lifetime] on its junction temperature; a device whose
    run raises is left out and changes nothing for the others. *)
Theorem run_simulation_keeps_returning_runs
    (devices : list (String.string * MOSFETParams.t))
    (name : String.string) (tr : Trace) (e : R * lifetime * nat * list (R * R)) :
  NoDup (map fst devices) ->
  (In (name, (tr, e)) (run_simulation interp1d solve_ivp devices)
   <-> exists params : MOSFETParams.t,
         In (name, params) devices /\
         run_thermal_simulation interp1d solve_ivp params VRT IRT T_AMB F_SW
           = inr tr /\
         estimate_lifetime (trace_t_j tr) (LIFETIME_PARAMS params) = Some e) /\
  (In name (map fst (run_simulation interp1d solve_ivp devices))
   <-> exists (params : MOSFETParams.t) (tr' : Trace),
         In (name, params) devices /\
         run_thermal_simulation interp1d solve_ivp params VRT IRT T_AMB F_SW
           = inr tr').
Proof.
  intros _. unfold run_simulation. split.
  - rewrite run_simulation_entries. split; [|intros H; right; exact H].
    intros [[]|H]. exact H.
  - split.
    + intros H. apply in_map_iff in H. destruct H as [[n [tr' e']] [En H]].
      cbn [fst] in En. subst n.
      apply run_simulation_entries in H. destruct H as [[]|[params [Hin [Hr _]]]].
      exists params, tr'. split; assumption.
    + intros [params [tr' [Hin Hr]]].
      destruct (estimate_lifetime_returns (trace_t_j tr') (LIFETIME_PARAMS params))
        as [e' Ee].
      apply in_map_iff. exists (name, (tr', e')). split; [reflexivity|].
      apply run_simulation_entries. right. exists params.
      split; [exact Hin|split; [exact Hr|exact Ee]].
Qed.
End DeviceLoop.

Lemma run_simulation_keeps_returning_runs_witness :
  let interp1d := fun (_ _ : list R) (_ : R) => 0 in
  let solve_ivp := fun (_ : R -> list R -> option (list R)) (_ : R * R)
                       (_ t : list R) => Some [map (fun _ => 0) t] in
  let tr := mkTrace [] [] [] [] [] [] [] [] in
  let e := (0, Infinite, 0%nat, @nil (R * R)) in
  (In ("SPB20N60C3"%string, (tr, e)) (run_simulation interp1d solve_ivp MOSFET_PARAMS)
   <-> exists params : MOSFETParams.t,
         In ("SPB20N60C3"%string, params) MOSFET_PARAMS /\
         run_thermal_simulation interp1d solve_ivp params VRT IRT T_AMB F_SW
           = inr tr /\
         estimate_lifetime (trace_t_j tr) (LIFETIME_PARAMS params) = Some e) /\
  (In "SPB20N60C3"%string (map fst (run_simulation interp1d solve_ivp MOSFET_PARAMS))
   <-> exists (params : MOSFETParams.t) (tr' : Trace),
         In ("SPB20N60C3"%string, params) MOSFET_PARAMS /\
         run_thermal_simulation interp1d solve_ivp params VRT IRT T_AMB F_SW
           = inr tr').
Proof.
  intros interp1d solve_ivp tr e.
  apply (run_simulation_keeps_returning_runs interp1d solve_ivp MOSFET_PARAMS
           "SPB20N60C3"%string tr e).
  cbn [map fst MOSFET_PARAMS].
  constructor; [|constructor; [intros []|constructor]].
  intros [H|[]]. discriminate H.
Defined.
